(** * simple-machine: the CPU cycle, the scheduler and the coordinator of
    [src/index.ts], embedded in Rocq.

    Every class of the source becomes a module holding the state of an
    instance (a record, a list or a finite map) and one definition per method.
    A method is a computation in the monad [M S]: it receives the state of the
    objects it may touch and gives back that state together with either a
    normal result or the exception it threw, so that what a method had already
    mutated when it threw is still visible afterwards, as in JavaScript. *)

From Stdlib Require Import ZArith String Ascii Lia.
From stdpp Require Import base option list gmap strings pretty.

Local Open Scope string_scope.
Local Open Scope Z_scope.

(** ** Numbers and values

    The source computes on JavaScript numbers.  Only integer-valued numbers,
    the two zeros, the two infinities and NaN arise in it: programs are parsed
    with [parseInt], the ALU adds, subtracts, multiplies and floors quotients.
    [Fin z] is the double whose mathematical value is the integer [z] (the
    positive zero for [z = 0]).  Not every integer is a double: an operation
    whose exact result is the integer [z] returns [Num.of_integer z], the
    double nearest to [z], and a quotient is rounded to a double before
    [Math.floor] is applied to it. *)

Inductive number : Type :=
| Fin (z : Z)
| NegZero
| PosInf
| NegInf
| NaN.

(** What an array read or a variable can hold. *)
Inductive value : Type :=
| Undefined
| Number (n : number).

#[global] Instance number_eq_dec : EqDecision number.
Proof. solve_decision. Defined.

#[global] Instance value_eq_dec : EqDecision value.
Proof. solve_decision. Defined.

Module Num.

(** The mathematical value of a finite number; both zeros have value 0. *)
Definition mathematical_value (n : number) : option Z :=
  match n with
  | Fin z => Some z
  | NegZero => Some 0
  | _ => None
  end.

Definition sign_bit (n : number) : bool :=
  match n with
  | Fin z => z <? 0
  | NegZero | NegInf => true
  | PosInf | NaN => false
  end.

Definition zero (negative : bool) : number :=
  if negative then NegZero else Fin 0.

Definition infinity (negative : bool) : number :=
  if negative then NegInf else PosInf.

(** Unary minus. *)
Definition neg (n : number) : number :=
  match n with
  | Fin z => if z =? 0 then NegZero else Fin (- z)
  | NegZero => Fin 0
  | PosInf => NegInf
  | NegInf => PosInf
  | NaN => NaN
  end.

(** *** Rounding to a double *)

(** The integer nearest to the fraction [n / d], the even one of the two when
    [n / d] is half-way between them ([0 <= n], [0 < d]). *)
Definition nearest_even (n d : Z) : Z :=
  let q := n / d in
  let r := n mod d in
  if 2 * r <? d then q
  else if d <? 2 * r then q + 1
  else if Z.even q then q else q + 1.

(** The fraction [n / d] divided by [2 ^ k], as a fraction again. *)
Definition scaled (k n d : Z) : Z * Z :=
  if 0 <=? k then (n, d * 2 ^ k) else (n * 2 ^ (- k), d).

(** The exponent [k] with [2 ^ k <= n / d < 2 ^ (k + 1)] ([0 < n], [0 < d]). *)
Definition binade (n d : Z) : Z :=
  let k := Z.log2 n - Z.log2 d in
  let '(n', d') := scaled k n d in
  if d' <=? n' then k else k - 1.

(** The double nearest to the positive fraction [n / d], ties to the even
    significand, as its significand [m] and exponent [e]: the double is
    [m * 2 ^ e], with 53 bits of significand, and fewer below the smallest
    normal double, where the exponent stays at -1074. *)
Definition nearest_double (n d : Z) : Z * Z :=
  let e := Z.max (binade n d - 52) (- 1074) in
  let '(n', d') := scaled e n d in
  (nearest_even n' d', e).

(** The number that an operation returns whose exact result is the integer
    [z]: the double nearest to [z], an infinity when that is past the largest
    double. *)
Definition of_integer (z : Z) : number :=
  if z =? 0 then Fin 0
  else
    let '(m, e) := nearest_double (Z.abs z) 1 in
    let magnitude := if 0 <=? e then m * 2 ^ e else m / 2 ^ (- e) in
    if 2 ^ 1024 <=? magnitude then infinity (z <? 0)
    else Fin (Z.sgn z * magnitude).

(** [Math.floor(x / y)] for integers [x] and [y] other than 0: the quotient
    is rounded to a double first and towards minus infinity after that. *)
Definition floor_quotient (x y : Z) : Z :=
  let '(m, e) := nearest_double (Z.abs x) (Z.abs y) in
  let significand := Z.sgn x * Z.sgn y * m in
  if 0 <=? e then significand * 2 ^ e else significand / 2 ^ (- e).

(** [a + b] *)
Definition add (a b : number) : number :=
  match a, b with
  | NaN, _ | _, NaN => NaN
  | PosInf, NegInf | NegInf, PosInf => NaN
  | PosInf, _ | _, PosInf => PosInf
  | NegInf, _ | _, NegInf => NegInf
  | NegZero, NegZero => NegZero
  | NegZero, Fin y => Fin y
  | Fin x, NegZero => Fin x
  | Fin x, Fin y => of_integer (x + y)
  end.

(** [a - b], the sum of [a] and the negation of [b]. *)
Definition sub (a b : number) : number := add a (neg b).

(** [a * b] *)
Definition mul (a b : number) : number :=
  match mathematical_value a, mathematical_value b with
  | Some x, Some y =>
      if x * y =? 0 then zero (xorb (sign_bit a) (sign_bit b)) else of_integer (x * y)
  | Some x, None =>
      match b with
      | NaN => NaN
      | _ => if x =? 0 then NaN else infinity (xorb (sign_bit a) (sign_bit b))
      end
  | None, Some y =>
      match a with
      | NaN => NaN
      | _ => if y =? 0 then NaN else infinity (xorb (sign_bit a) (sign_bit b))
      end
  | None, None =>
      match a, b with
      | NaN, _ | _, NaN => NaN
      | _, _ => infinity (xorb (sign_bit a) (sign_bit b))
      end
  end.

(** [Math.floor(a / b)].  The quotient of two integers need not be an
    integer, so the division and the rounding towards minus infinity are
    taken together: for finite non-zero operands the result is
    [floor_quotient]; a zero divisor gives an infinity, or NaN when the
    dividend is a zero as well. *)
Definition floor_div (a b : number) : number :=
  let negative := xorb (sign_bit a) (sign_bit b) in
  match mathematical_value a, mathematical_value b with
  | Some x, Some y =>
      if y =? 0 then (if x =? 0 then NaN else infinity negative)
      else if x =? 0 then zero negative
      else Fin (floor_quotient x y)
  | Some x, None =>
      match b with
      | NaN => NaN
      | _ => zero negative
      end
  | None, Some y =>
      match a with
      | NaN => NaN
      | _ => infinity negative
      end
  | None, None => NaN
  end.

(** ToInt32: the integer modulo 2^32, read as a signed 32-bit integer; what
    is not finite converts to 0. *)
Definition to_int32 (n : number) : Z :=
  match n with
  | Fin z => (z + 2 ^ 31) mod 2 ^ 32 - 2 ^ 31
  | _ => 0
  end.

(** ToNumber, as the bit operators apply it to their operands. *)
Definition of_value (v : value) : number :=
  match v with
  | Undefined => NaN
  | Number n => n
  end.

(** [a & b]: both operands as 32-bit integers; so is the result, kept as
    an integer. *)
Definition bit_and (a b : number) : Z :=
  Z.land (to_int32 a) (to_int32 b).

(** [a >> b]: sign-propagating shift by the low five bits of [b]. *)
Definition shift_right (a b : number) : Z :=
  Z.shiftr (to_int32 a) (Z.land (to_int32 b) 31).

End Num.

(** ** Exceptions and the monad of methods *)

(** The exceptions the source can raise.  The first three are the [Error]
    objects it constructs itself, told apart by their message; the other two
    are raised by the language: [TypeError] when a method is called on
    [undefined], [RangeError] when an array is created with an invalid
    length. *)
Inductive error : Type :=
| UnsupportedOperation (operation : string) (* Unsupported operation: ${operation} *)
| UnknownOpcode (opcode : Z)                (* Unknown opcode: ${opcode} *)
| ProcessNotFound (pid : Z)                 (* Process ${pid} not found. *)
| TypeError
| RangeError.

Inductive completion (A : Type) : Type :=
| Normal (a : A)
| Throw (e : error).
Arguments Normal {A} a.
Arguments Throw {A} e.

Definition M (S A : Type) : Type := S -> completion A * S.

#[global] Instance M_ret {S} : MRet (M S) :=
  fun A a s => (Normal a, s).

#[global] Instance M_bind {S} : MBind (M S) :=
  fun A B f m s =>
    match m s with
    | (Normal a, s') => f a s'
    | (Throw e, s') => (Throw e, s')
    end.

Definition throw {S A} (e : error) : M S A := fun s => (Throw e, s).

Definition gets {S A} (f : S -> A) : M S A := fun s => (Normal (f s), s).

Definition modify {S} (f : S -> S) : M S unit := fun s => (Normal tt, f s).

(** A computation that touches no state: a constructor, a pure method. *)
Definition lift {S A} (c : completion A) : M S A := fun s => (c, s).

(** Run a method of a component [T] of the state [S]. *)
Definition zoom {S T A} (get : S -> T) (set : T -> S -> S) (m : M T A) : M S A :=
  fun s => let '(c, t) := m (get s) in (c, set t s).

(** [try { m } catch (error) { handler error }] *)
Definition try_catch {S A} (m : M S A) (handler : error -> M S A) : M S A :=
  fun s =>
    match m s with
    | (Normal a, s') => (Normal a, s')
    | (Throw e, s') => handler e s'
    end.

Definition zoom_fst {S T A} : M S A -> M (S * T) A :=
  zoom fst (fun s '(_, t) => (s, t)).

Definition zoom_snd {S T A} : M T A -> M (S * T) A :=
  zoom snd (fun t '(s, _) => (s, t)).

(** [array[index]] on an array that is never extended: [None] is
    [undefined]. *)
Definition element {A} (array : list A) (index : Z) : option A :=
  if 0 <=? index then array !! Z.to_nat index else None.

(** ** Storage *)

Module Storage.

(** The array [memory] as the object it is: its elements and other
    properties by integer key, and its [length].  Addresses are integers:
    the callers pass the instruction pointer or a position in a program. *)
Record t : Type := mk { memory : gmap Z number; length : Z }.

(** [new Array(size).fill(0)]: [size] must be an array length. *)
Definition new (size : Z) : completion t :=
  if (0 <=? size) && (size <? 2 ^ 32)
  then Normal {| memory := gset_to_gmap (Fin 0) (list_to_set (seqZ 0 size));
                 length := size |}
  else Throw RangeError.

(** [return this.memory[address]] *)
Definition read (address : Z) : M t value :=
  gets (fun self =>
    match memory self !! address with
    | Some data => Number data
    | None => Undefined
    end).

(** [this.memory[address] = data]: the assignment defines the property, and
    an array index at or past [length] moves [length] behind it. *)
Definition write (address : Z) (data : number) : M t unit :=
  modify (fun self =>
    {| memory := <[address := data]> (memory self);
       length := if (length self <=? address) && (address <? 2 ^ 32 - 1)
                 then address + 1 else length self |}).

End Storage.

(** ** Register and RegisterFile *)

Module Register.

Record t : Type := mk { value : number }.

(** [private value: number = 0] *)
Definition new : t := {| value := Fin 0 |}.

Definition read : M t number := gets value.

Definition write (data : number) : M t unit :=
  modify (fun _ => {| value := data |}).

End Register.

Module RegisterFile.

Definition t : Type := list Register.t.

(** [Array.from({ length: size }, () => new Register())]: a length below
    zero counts as zero. *)
Definition new (size : Z) : completion t :=
  if size <? 2 ^ 32
  then Normal (replicate (Z.to_nat size) Register.new)
  else Throw RangeError.

(** [return this.registers[index].read()] *)
Definition read (index : Z) : M t number :=
  fun self =>
    match element self index with
    | Some register => (fst (Register.read register), self)
    | None => (Throw TypeError, self)
    end.

(** [this.registers[index].write(data)] *)
Definition write (index : Z) (data : number) : M t unit :=
  fun self =>
    match element self index with
    | Some register =>
        let '(c, register') := Register.write data register in
        (c, <[Z.to_nat index := register']> self)
    | None => (Throw TypeError, self)
    end.

End RegisterFile.

(** ** ALU *)

Module ALU.

Definition execute (operation : string) (operand1 operand2 : number)
  : completion number :=
  if String.eqb operation "ADD" then Normal (Num.add operand1 operand2)
  else if String.eqb operation "SUB" then Normal (Num.sub operand1 operand2)
  else if String.eqb operation "MUL" then Normal (Num.mul operand1 operand2)
  else if String.eqb operation "DIV" then Normal (Num.floor_div operand1 operand2)
  else Throw (UnsupportedOperation operation).

End ALU.

(** ** ControlUnit *)

Module ControlUnit.

Record t : Type := mk { instructionPointer : Z }.

Definition new : t := {| instructionPointer := 0 |}.

(** [return memory.read(this.instructionPointer++)] *)
Definition fetchInstruction : M (t * Storage.t) value :=
  address ← zoom_fst (gets instructionPointer);
  zoom_fst (modify (fun _ => {| instructionPointer := address + 1 |}));;
  zoom_snd (Storage.read address).


End ControlUnit.

(** ** CPU *)

Module CPU.

(** The ALU holds no state and is left out of the record. *)
Record t : Type := mk { registers : RegisterFile.t; controlUnit : ControlUnit.t }.

Definition new (registerCount : Z) : completion t :=
  match RegisterFile.new registerCount with
  | Normal registers =>
      Normal {| registers := registers; controlUnit := ControlUnit.new |}
  | Throw e => Throw e
  end.

Definition on_registers {A} : M RegisterFile.t A -> M (t * Storage.t) A :=
  fun m => zoom_fst
    (zoom registers (fun r self => {| registers := r; controlUnit := controlUnit self |}) m).

Definition on_controlUnit {A} : M (ControlUnit.t * Storage.t) A -> M (t * Storage.t) A :=
  zoom (fun '(self, memory) => (controlUnit self, memory))
       (fun '(cu, memory) '(self, _) =>
          ({| registers := registers self; controlUnit := cu |}, memory)).

(** The four fields of an instruction word. *)
Definition opcode (instruction : value) : Z :=
  Num.shift_right (Fin (Num.bit_and (Num.of_value instruction) (Fin 0xF000))) (Fin 12).
Definition operand1 (instruction : value) : Z :=
  Num.shift_right (Fin (Num.bit_and (Num.of_value instruction) (Fin 0x0F00))) (Fin 8).
Definition operand2 (instruction : value) : Z :=
  Num.shift_right (Fin (Num.bit_and (Num.of_value instruction) (Fin 0x00F0))) (Fin 4).
Definition destination (instruction : value) : Z :=
  Num.bit_and (Num.of_value instruction) (Fin 0x000F).

(** One fetch, decode and execute. *)
Definition execute : M (t * Storage.t) unit :=
  instruction ← on_controlUnit ControlUnit.fetchInstruction;
  if opcode instruction =? 0x1 then
    a ← on_registers (RegisterFile.read (operand1 instruction));
    b ← on_registers (RegisterFile.read (operand2 instruction));
    result ← lift (ALU.execute "ADD" a b);
    on_registers (RegisterFile.write (destination instruction) result)
  else if opcode instruction =? 0x2 then
    a ← on_registers (RegisterFile.read (operand1 instruction));
    b ← on_registers (RegisterFile.read (operand2 instruction));
    subResult ← lift (ALU.execute "SUB" a b);
    on_registers (RegisterFile.write (destination instruction) subResult)
  else throw (UnknownOpcode (opcode instruction)).

End CPU.

(** ** Strings: [split] and [parseInt]

    A text is a [string], a sequence of code units below 256; the white
    space that [parseInt] skips is the white space among these. *)

Module Str.

Definition code (c : ascii) : Z := Z.of_N (N_of_ascii c).

(** [s.split(separator)] for a separator of one character: the pieces
    between the separators, at least one. *)
Fixpoint split (separator : ascii) (s : string) : list string :=
  match s with
  | EmptyString => [EmptyString]
  | String c rest =>
      if Ascii.eqb c separator then EmptyString :: split separator rest
      else match split separator rest with
           | token :: tokens => String c token :: tokens
           | [] => [String c EmptyString]
           end
  end.

(** White space and line terminators among the first 256 code units. *)
Definition is_white_space (c : ascii) : bool :=
  let n := code c in
  (9 <=? n) && (n <=? 13) || (n =? 32) || (n =? 160).

Fixpoint trim_start (s : string) : string :=
  match s with
  | String c rest => if is_white_space c then trim_start rest else s
  | EmptyString => EmptyString
  end.

(** The value of a digit or letter as a digit of some radix. *)
Definition digit_value (c : ascii) : option Z :=
  let n := code c in
  if (48 <=? n) && (n <=? 57) then Some (n - 48)
  else if (97 <=? n) && (n <=? 122) then Some (n - 87)
  else if (65 <=? n) && (n <=? 90) then Some (n - 55)
  else None.

(** The integer written by the longest prefix of [s] made of digits of
    radix [R], after the digits [acc] already read; [None] while no digit
    was read. *)
Fixpoint digits (R : Z) (acc : option Z) (s : string) : option Z :=
  match s with
  | String c rest =>
      match digit_value c with
      | Some d =>
          if d <? R then digits R (Some (R * default 0 acc + d)) rest else acc
      | None => acc
      end
  | EmptyString => acc
  end.

Definition strip_sign (s : string) : bool * string :=
  match s with
  | String "-" rest => (true, rest)
  | String "+" rest => (false, rest)
  | _ => (false, s)
  end.

Definition strip_hex_prefix (s : string) : option string :=
  match s with
  | String "0" (String "x" rest) | String "0" (String "X" rest) => Some rest
  | _ => None
  end.

(** [parseInt(text, radix)].  The digits denote an integer, and the result
    is the double nearest to that integer, with the sign of the text.  (For
    more than 20 significant decimal digits the standard also allows the
    value of the text with the later digits replaced by 0; Node uses all
    digits.) *)
Definition parseInt (text : string) (radix : number) : number :=
  let '(negative, input) := strip_sign (trim_start text) in
  let R := Num.to_int32 radix in
  if negb (R =? 0) && ((R <? 2) || (36 <? R)) then NaN
  else
    let stripPrefix := (R =? 0) || (R =? 16) in
    let '(R, input) :=
      match (if stripPrefix then strip_hex_prefix input else None) with
      | Some rest => (16, rest)
      | None => (if R =? 0 then 10 else R, input)
      end in
    match digits R None input with
    | None => NaN
    | Some mathInt =>
        if negative then Num.neg (Num.of_integer mathInt) else Num.of_integer mathInt
    end.

(** [tokens.join(separator)], the text that [split] takes apart; the source
    does not call it, it serves to state what [split] returns. *)
Fixpoint join (separator : ascii) (tokens : list string) : string :=
  match tokens with
  | [] => EmptyString
  | [token] => token
  | token :: rest => token +:+ String separator (join separator rest)
  end.

(** No character of [s] is [c]. *)
Fixpoint free_of (c : ascii) (s : string) : bool :=
  match s with
  | EmptyString => true
  | String c' rest => negb (Ascii.eqb c' c) && free_of c rest
  end.

End Str.

(** [array.forEach((x, index) => f(x, index))] *)
Fixpoint forEach_from {S A} (f : A -> Z -> M S unit) (index : Z) (array : list A)
  : M S unit :=
  match array with
  | [] => mret tt
  | x :: rest => f x index;; forEach_from f (index + 1) rest
  end.

Definition forEach {S A} (f : A -> Z -> M S unit) (array : list A) : M S unit :=
  forEach_from f 0 array.

(** ** Process *)

Module Process.

Inductive state_t : Type := ready | running | waiting | terminated.

#[global] Instance state_eq_dec : EqDecision state_t.
Proof. solve_decision. Defined.

Record t : Type := mk {
  pid : Z;
  memory : Storage.t;
  registers : RegisterFile.t;
  instructionPointer : Z;
  state : state_t
}.

Definition new (pid memorySize registerCount : Z) : completion t :=
  match Storage.new memorySize with
  | Throw e => Throw e
  | Normal memory =>
      match RegisterFile.new registerCount with
      | Throw e => Throw e
      | Normal registers =>
          Normal {| pid := pid; memory := memory; registers := registers;
                    instructionPointer := 0; state := ready |}
      end
  end.

Definition set_memory (m : Storage.t) (self : t) : t :=
  {| pid := pid self; memory := m; registers := registers self;
     instructionPointer := instructionPointer self; state := state self |}.

Definition set_state (s : state_t) (self : t) : t :=
  {| pid := pid self; memory := memory self; registers := registers self;
     instructionPointer := instructionPointer self; state := s |}.

Definition on_memory {A} : M Storage.t A -> M t A := zoom memory set_memory.

Definition loadProgram (program : string) : M t unit :=
  let instructions :=
    (fun num => Str.parseInt num (Fin 10)) <$> Str.split "," program in
  on_memory
    (forEach (fun instruction index => Storage.write index instruction) instructions).

End Process.

(** A reference to a [Process] object: its position in the heap of the
    processes created so far.  The scheduler's queue and the coordinator's
    table hold references to the same objects. *)
Abbreviation loc := nat.

(** ** Scheduler *)

Module Scheduler.

Record t : Type := mk { processQueue : list loc; currentProcessIndex : nat }.

Definition new : t := {| processQueue := []; currentProcessIndex := 0 |}.

Definition addProcess (process : loc) : M t unit :=
  modify (fun self =>
    {| processQueue := processQueue self ++ [process];
       currentProcessIndex := currentProcessIndex self |}).

(** The result [None] is [null], or the [undefined] that an index past the
    end of the queue gives; the callers only test the result for truth. *)
Definition schedule : M t (option loc) :=
  fun self =>
    if decide (length (processQueue self) = 0%nat) then (Normal None, self)
    else
      let process := processQueue self !! currentProcessIndex self in
      (Normal process,
       {| processQueue := processQueue self;
          currentProcessIndex :=
            ((currentProcessIndex self + 1) mod length (processQueue self))%nat |}).

Definition is_running (heap : list Process.t) (p : loc) : bool :=
  match heap !! p with
  | Some process => bool_decide (Process.state process = Process.running)
  | None => false
  end.

(** The first process of the queue that is running becomes ready. *)
Definition preempt : M (t * list Process.t) unit :=
  fun '(self, heap) =>
    match List.find (is_running heap) (processQueue self) with
    | Some runningProcess =>
        (Normal tt, (self, alter (Process.set_state Process.ready) runningProcess heap))
    | None => (Normal tt, (self, heap))
    end.

End Scheduler.

(** ** Timer *)

(** The interval timers of the runtime.  A callback of an interval only runs
    between two turns of the event loop, never while a method of the source
    is running. *)
Module Host.

Record t : Type := mk { intervals : gset nat; next_id : nat }.

Definition new : t := {| intervals := ∅; next_id := 0 |}.

Definition setInterval : M t nat :=
  fun host =>
    (Normal (next_id host),
     {| intervals := {[next_id host]} ∪ intervals host;
        next_id := S (next_id host) |}).

Definition clearInterval (id : nat) : M t unit :=
  modify (fun host =>
    {| intervals := intervals host ∖ {[id]}; next_id := next_id host |}).

End Host.

Module Timer.

(** The callback is always [() => this.preemptProcess()] and is not
    stored. *)
Record t : Type := mk { interval : Z; timerId : option nat }.

Definition new (interval : Z) : t := {| interval := interval; timerId := None |}.

Definition start : M (t * Host.t) unit :=
  id ← zoom_snd Host.setInterval;
  zoom_fst (modify (fun self => {| interval := interval self; timerId := Some id |})).

Definition stop : M (t * Host.t) unit :=
  timerId ← zoom_fst (gets timerId);
  match timerId with
  | Some id =>
      zoom_snd (Host.clearInterval id);;
      zoom_fst (modify (fun self => {| interval := interval self; timerId := None |}))
  | None => mret tt
  end.

End Timer.

(** ** SimpleOS *)

Module SimpleOS.

(** The coordinator together with what it reaches: [heap] holds the
    [Process] objects, [host] the runtime's timers.  The file system and
    the virtual memory take no part in processes and are left out, and so
    is what is written to the console. *)
Record t : Type := mk {
  heap : list Process.t;
  host : Host.t;
  scheduler : Scheduler.t;
  timer : Timer.t;
  processes : gmap Z loc
}.

Definition new : t :=
  {| heap := []; host := Host.new; scheduler := Scheduler.new;
     timer := Timer.new 1000; processes := ∅ |}.

Definition set_heap (h : list Process.t) (self : t) : t :=
  {| heap := h; host := host self; scheduler := scheduler self;
     timer := timer self; processes := processes self |}.

Definition set_scheduler (s : Scheduler.t) (self : t) : t :=
  {| heap := heap self; host := host self; scheduler := s;
     timer := timer self; processes := processes self |}.

Definition set_processes (m : gmap Z loc) (self : t) : t :=
  {| heap := heap self; host := host self; scheduler := scheduler self;
     timer := timer self; processes := m |}.

Definition on_scheduler {A} : M Scheduler.t A -> M t A :=
  zoom scheduler set_scheduler.

Definition on_timer {A} : M (Timer.t * Host.t) A -> M t A :=
  zoom (fun self => (timer self, host self))
       (fun '(tm, h) self =>
          {| heap := heap self; host := h; scheduler := scheduler self;
             timer := tm; processes := processes self |}).

(** Run a method of the process that [process] refers to.  A reference
    always points into the heap (see [wf]); for one that did not, the call
    is given the [TypeError] of a call on [undefined]. *)
Definition on_process {A} (process : loc) (m : M Process.t A) : M t A :=
  fun self =>
    match heap self !! process with
    | Some p => let '(c, p') := m p in (c, set_heap (<[process := p']> (heap self)) self)
    | None => (Throw TypeError, self)
    end.

(** [new Process(...)]: the new object is placed in the heap. *)
Definition allocate (p : completion Process.t) : M t loc :=
  fun self =>
    match p with
    | Normal p => (Normal (length (heap self)), set_heap (heap self ++ [p]) self)
    | Throw e => (Throw e, self)
    end.

(** [random] is what [Math.floor(Math.random() * 10000)] evaluated to in
    this call: an integer from 0 to 9999. *)
Definition createProcess (random : Z) (memorySize registerCount : Z) : M t loc :=
  let pid := random in
  process ← allocate (Process.new pid memorySize registerCount);
  on_scheduler (Scheduler.addProcess process);;
  modify (fun self => set_processes (<[pid := process]> (processes self)) self);;
  mret process.

Definition loadProgramIntoProcess (pid : Z) (program : string) : M t unit :=
  process ← gets (fun self => processes self !! pid);
  match process with
  | None => throw (ProcessNotFound pid)
  | Some process => on_process process (Process.loadProgram program)
  end.

(** [const cpu = new CPU(...); cpu.execute(process.memory)]: the CPU is
    local to the call and is dropped after it. *)
Definition cpu_cycle : M Process.t unit :=
  fun p =>
    match CPU.new (Z.of_nat (length (Process.registers p))) with
    | Throw e => (Throw e, p)
    | Normal cpu =>
        let '(c, (_, memory)) := CPU.execute (cpu, Process.memory p) in
        (c, Process.set_memory memory p)
    end.

(** The body of [if (process.state === 'ready')], the same in
    [executeProcess] and in [run]. *)
Definition dispatch (process : loc) : M t unit :=
  state ← on_process process (gets Process.state);
  if decide (state = Process.ready) then
    on_process process (modify (Process.set_state Process.running));;
    try_catch
      (on_process process cpu_cycle;;
       on_process process (modify (Process.set_state Process.terminated)))
      (fun error =>
         on_process process (modify (Process.set_state Process.terminated)))
  else mret tt.

Definition executeProcess (pid : Z) : M t unit :=
  process ← gets (fun self => processes self !! pid);
  match process with
  | None => throw (ProcessNotFound pid)
  | Some process => dispatch process
  end.

Definition preemptProcess : M t unit :=
  zoom (fun self => (scheduler self, heap self))
       (fun '(s, h) self => set_scheduler s (set_heap h self))
       Scheduler.preempt.

(** One turn of [while (process) { ... process = this.scheduler.schedule() }]
    for a process that is not [null]: the next value of [process]. *)
Definition run_body (process : loc) : M t (option loc) :=
  dispatch process;;
  on_scheduler Scheduler.schedule.

(** The loop, for at most [fuel] turns: [None] when it is still running
    after them. *)
Fixpoint run_loop (fuel : nat) (process : option loc) (self : t)
  : option (completion unit * t) :=
  match process with
  | None => Some (Normal tt, self)
  | Some p =>
      match fuel with
      | O => None
      | S fuel =>
          match run_body p self with
          | (Normal next, self') => run_loop fuel next self'
          | (Throw e, self') => Some (Throw e, self')
          end
      end
  end.

Definition run (fuel : nat) (self : t) : option (completion unit * t) :=
  match (process ← on_scheduler Scheduler.schedule;
         on_timer Timer.start;;
         mret process) self with
  | (Normal process, self) =>
      match run_loop fuel process self with
      | Some (Normal _, self) => Some (on_timer Timer.stop self)
      | r => r
      end
  | (Throw e, self) => Some (Throw e, self)
  end.

End SimpleOS.

(** ** States of the coordinator

    The states that calls of the coordinator's methods lead to from a new
    coordinator, and what every one of them satisfies. *)

Inductive reachable : SimpleOS.t -> Prop :=
| reachable_new : reachable SimpleOS.new
| reachable_createProcess os random memorySize registerCount :
    reachable os ->
    reachable (snd (SimpleOS.createProcess random memorySize registerCount os))
| reachable_loadProgramIntoProcess os pid program :
    reachable os ->
    reachable (snd (SimpleOS.loadProgramIntoProcess pid program os))
| reachable_executeProcess os pid :
    reachable os ->
    reachable (snd (SimpleOS.executeProcess pid os))
| reachable_preemptProcess os :
    reachable os ->
    reachable (snd (SimpleOS.preemptProcess os))
| reachable_run os fuel c os' :
    reachable os ->
    SimpleOS.run fuel os = Some (c, os') ->
    reachable os'.

(** The table maps every pid it knows to one process of the heap, and that
    process carries this pid. *)
Definition table_by_pid (os : SimpleOS.t) : Prop :=
  forall pid l, SimpleOS.processes os !! pid = Some l ->
                exists p, SimpleOS.heap os !! l = Some p /\ Process.pid p = pid.

(** Every created process is in the queue, the references of the queue point
    into the heap, the cursor is inside the queue (at 0 while the queue is
    empty), and the table is by pid. *)
Definition wf (os : SimpleOS.t) : Prop :=
  length (Scheduler.processQueue (SimpleOS.scheduler os)) = length (SimpleOS.heap os) /\
  Forall (fun p => (p < length (SimpleOS.heap os))%nat)
         (Scheduler.processQueue (SimpleOS.scheduler os)) /\
  (Scheduler.currentProcessIndex (SimpleOS.scheduler os)
     < Nat.max 1 (length (Scheduler.processQueue (SimpleOS.scheduler os))))%nat /\
  table_by_pid os.

(** What a method that only works on the processes themselves leaves as it
    is: the scheduler, the timer, the table, and which processes there are,
    with their pids. *)
Definition same_frame (os os' : SimpleOS.t) : Prop :=
  SimpleOS.scheduler os' = SimpleOS.scheduler os /\
  SimpleOS.timer os' = SimpleOS.timer os /\
  SimpleOS.host os' = SimpleOS.host os /\
  SimpleOS.processes os' = SimpleOS.processes os /\
  Process.pid <$> SimpleOS.heap os' = Process.pid <$> SimpleOS.heap os.

(** A method of a process that does not touch its pid. *)
Definition keeps_pid {A} (m : M Process.t A) : Prop :=
  forall p, Process.pid (snd (m p)) = Process.pid p.

(** A call of [createProcess]: the number drawn for the pid, the memory size
    and the register count; the sizes are valid when the two arrays can be
    created. *)
Definition call : Type := Z * Z * Z.

Definition draw (c : call) : Z := fst (fst c).

Definition valid_sizes (c : call) : Prop :=
  0 <= snd (fst c) < 2 ^ 32 /\ snd c < 2 ^ 32.

(** The coordinator after a sequence of [createProcess] calls. *)
Definition createProcesses (calls : list call) (os : SimpleOS.t) : SimpleOS.t :=
  foldl (fun os '(random, memorySize, registerCount) =>
           snd (SimpleOS.createProcess random memorySize registerCount os))
        os calls.

(** The queue is not empty: its cursor is inside it, and its entries are
    processes of the heap. *)
Definition queue_live (os : SimpleOS.t) : Prop :=
  (Scheduler.currentProcessIndex (SimpleOS.scheduler os)
     < length (Scheduler.processQueue (SimpleOS.scheduler os)))%nat /\
  Forall (fun p => (p < length (SimpleOS.heap os))%nat)
         (Scheduler.processQueue (SimpleOS.scheduler os)).

(** ** Example states *)

(** The memory of the source's usage example, 256 words with the word 0x1120
    at address 0, and a CPU of four registers in which R1 and R2 were set to
    5 and 10 the way that example sets registers, by [write] on the register
    file of the CPU. *)
Definition example_memory : Storage.t :=
  match Storage.new 256 with
  | Normal memory =>
      snd ((Storage.write 0 (Fin 0x1120);; Storage.write 1 (Fin 0x0000)) memory)
  | Throw _ => Storage.mk ∅ 0
  end.

Definition example_cpu : CPU.t :=
  match CPU.new 4 with
  | Normal cpu =>
      fst (snd ((CPU.on_registers (RegisterFile.write 1 (Fin 5));;
                 CPU.on_registers (RegisterFile.write 2 (Fin 10)))
                  (cpu, example_memory)))
  | Throw _ => CPU.mk [] ControlUnit.new
  end.

(** A coordinator with one process of 16 words and 4 registers, whose pid was
    drawn as 42. *)
Definition one_process : SimpleOS.t :=
  snd (SimpleOS.createProcess 42 16 4 SimpleOS.new).

(** ** FileSystem and VirtualMemory *)

(** The [Error] objects of the file system and of the virtual memory, told
    apart by their message. *)
Inductive lookup_error : Type :=
| FileNotFound (name : string)                 (* File not found: ${name} *)
| InvalidVirtualAddress (virtualAddress : Z).  (* Invalid virtual address: ${virtualAddress} *)

(** What a method of the two classes gives back: its result or the error it
    threw, and the state of the object after it. *)
Definition outcome (S A : Type) : Type := (lookup_error + A) * S.

Module FileSystem.

(** [files: Map<string, string>].  The order in which the names were
    entered, which only an iteration over the map shows, is not kept; the
    methods below look up, set and delete single names. *)
Record t : Type := mk { files : gmap string string }.

Definition new : t := {| files := ∅ |}.

Definition createFile (name content : string) (self : t) : outcome t unit :=
  (inr tt, {| files := <[name := content]> (files self) |}).

Definition readFile (name : string) (self : t) : outcome t string :=
  match files self !! name with
  | None => (inl (FileNotFound name), self)
  | Some content => (inr content, self)
  end.

Definition writeFile (name content : string) (self : t) : outcome t unit :=
  match files self !! name with
  | None => (inl (FileNotFound name), self)
  | Some _ => (inr tt, {| files := <[name := content]> (files self) |})
  end.

Definition deleteFile (name : string) (self : t) : outcome t unit :=
  match files self !! name with
  | None => (inl (FileNotFound name), self)
  | Some _ => (inr tt, {| files := delete name (files self) |})
  end.

End FileSystem.

Module VirtualMemory.

(** [pageTable: Map<number, number>]; addresses are integers. *)
Record t : Type := mk { pageTable : gmap Z Z }.

Definition new : t := {| pageTable := ∅ |}.

Definition mapVirtualToPhysical (virtualAddress physicalAddress : Z) (self : t)
  : outcome t unit :=
  (inr tt, {| pageTable := <[virtualAddress := physicalAddress]> (pageTable self) |}).

Definition resolve (virtualAddress : Z) (self : t) : outcome t Z :=
  match pageTable self !! virtualAddress with
  | None => (inl (InvalidVirtualAddress virtualAddress), self)
  | Some physicalAddress => (inr physicalAddress, self)
  end.

End VirtualMemory.

(** ** Repeated calls *)


(** [count] calls of [schedule] in a row: what they return. *)
Fixpoint schedule_many (count : nat) : M Scheduler.t (list (option loc)) :=
  match count with
  | O => mret []
  | S count =>
      process ← Scheduler.schedule;
      rest ← schedule_many count;
      mret (process :: rest)
  end.

(** The first [turns] turns of the loop of [run], started with [process]: the
    value of [process] and the coordinator after them.  It stops before
    [turns] when the loop ends or a turn throws. *)
Fixpoint run_turns (turns : nat) (process : option loc) (self : SimpleOS.t)
  : completion (option loc) * SimpleOS.t :=
  match turns, process with
  | S turns, Some p =>
      match SimpleOS.run_body p self with
      | (Normal next, self') => run_turns turns next self'
      | (Throw e, self') => (Throw e, self')
      end
  | _, _ => (Normal process, self)
  end.

(** The start of [run], before its loop: the first [schedule] and the start
    of the timer. *)
Definition run_start : M SimpleOS.t (option loc) :=
  process ← SimpleOS.on_scheduler Scheduler.schedule;
  SimpleOS.on_timer Timer.start;;
  mret process.

(** The coordinator after the start of [run] and the first [turns] turns of
    its loop. *)
Definition run_for (turns : nat) (self : SimpleOS.t) : SimpleOS.t :=
  match run_start self with
  | (Normal process, self') => snd (run_turns turns process self')
  | (Throw _, self') => self'
  end.

(** What a call of a method of the coordinator leads to: the coordinator
    after the call, for the four methods that always come back, and the
    coordinator after any number of turns of its loop for [run], which does
    not come back while there is a process. *)
Inductive step : SimpleOS.t -> SimpleOS.t -> Prop :=
| step_createProcess os random memorySize registerCount :
    step os (snd (SimpleOS.createProcess random memorySize registerCount os))
| step_loadProgramIntoProcess os pid program :
    step os (snd (SimpleOS.loadProgramIntoProcess pid program os))
| step_executeProcess os pid :
    step os (snd (SimpleOS.executeProcess pid os))
| step_preemptProcess os :
    step os (snd (SimpleOS.preemptProcess os))
| step_run os turns :
    step os (run_for turns os).

(** The ids of the host's intervals were all handed out by [setInterval]. *)
Definition host_ok (host : Host.t) : Prop :=
  forall id, id ∈ Host.intervals host -> (id < Host.next_id host)%nat.

(** ** One cycle of the CPU, case by case *)

(** What [memory.read(address)] returns. *)
Definition word_at (memory : Storage.t) (address : Z) : value :=
  match Storage.memory memory !! address with
  | Some data => Number data
  | None => Undefined
  end.

(** The word that the next cycle of [cpu] fetches from [memory]. *)
Definition fetched (cpu : CPU.t) (memory : Storage.t) : value :=
  word_at memory (ControlUnit.instructionPointer (CPU.controlUnit cpu)).

(** [cpu] with the registers [regs] and the instruction pointer moved on by
    one. *)
Definition advanced (regs : RegisterFile.t) (cpu : CPU.t) : CPU.t :=
  {| CPU.registers := regs;
     CPU.controlUnit :=
       {| ControlUnit.instructionPointer :=
            ControlUnit.instructionPointer (CPU.controlUnit cpu) + 1 |} |}.

(** What a cycle does for an opcode whose operation is [op]: with the three
    registers named by the word present, the destination receives [op] of
    the two operands; with one of them missing nothing is written. *)
Definition arithmetic (op : number -> number -> number)
    (cpu : CPU.t) (memory : Storage.t) : completion unit * (CPU.t * Storage.t) :=
  let instruction := fetched cpu memory in
  let regs := CPU.registers cpu in
  match element regs (CPU.operand1 instruction),
        element regs (CPU.operand2 instruction),
        element regs (CPU.destination instruction) with
  | Some a, Some b, Some _ =>
      (Normal tt,
       (advanced (<[Z.to_nat (CPU.destination instruction) :=
                     {| Register.value := op (Register.value a) (Register.value b) |}]> regs)
                 cpu, memory))
  | _, _, _ => (Throw TypeError, (advanced regs cpu, memory))
  end.

(** ** What holds of the processes between two calls *)

(** A process as the coordinator keeps it: ready or terminated, with its
    registers and its instruction pointer as they were created. *)
Definition at_rest (p : Process.t) : Prop :=
  (Process.state p = Process.ready \/ Process.state p = Process.terminated) /\
  Forall (fun register => Register.value register = Fin 0) (Process.registers p) /\
  Process.instructionPointer p = 0.

(** All processes are at rest, and the queue holds every process once, in
    the order of creation. *)
Definition settled (os : SimpleOS.t) : Prop :=
  Forall at_rest (SimpleOS.heap os) /\
  Scheduler.processQueue (SimpleOS.scheduler os) = seq 0 (length (SimpleOS.heap os)).

(** No interval of the timer is pending. *)
Definition timer_idle (os : SimpleOS.t) : Prop :=
  Timer.timerId (SimpleOS.timer os) = None /\ Host.intervals (SimpleOS.host os) = ∅.

(** A process as [new Process(42, 16, 4)] creates it. *)
Definition example_process : Process.t :=
  match Process.new 42 16 4 with
  | Normal p => p
  | Throw _ =>
      {| Process.pid := 42; Process.memory := example_memory;
         Process.registers := []; Process.instructionPointer := 0;
         Process.state := Process.ready |}
  end.

(** Three processes, of which the second and the third are running. *)
Definition preempt_example_heap : list Process.t :=
  [ {| Process.pid := 1; Process.memory := example_memory; Process.registers := [];
       Process.instructionPointer := 0; Process.state := Process.terminated |};
    {| Process.pid := 2; Process.memory := example_memory; Process.registers := [];
       Process.instructionPointer := 0; Process.state := Process.running |};
    {| Process.pid := 3; Process.memory := example_memory; Process.registers := [];
       Process.instructionPointer := 0; Process.state := Process.running |} ].

(** * Properties *)

(** Settle a decidable statement about concrete data by evaluating its
    decision procedure. *)
Ltac by_computation := apply (bool_decide_unpack _); vm_compute; exact I.

(** ** Rounding to a double *)

Section Rounding.

Lemma nearest_even_spec (n d : Z) :
  0 < d ->
  - d <= 2 * (n - Num.nearest_even n d * d) <= d.
Proof.
  intros Hd. unfold Num.nearest_even.
  pose proof (Z.div_mod n d ltac:(lia)) as Hn.
  pose proof (Z.mod_pos_bound n d Hd) as Hr.
  destruct (Z.ltb_spec (2 * (n mod d)) d); [nia |].
  destruct (Z.ltb_spec d (2 * (n mod d))); [nia |].
  destruct (Z.even (n / d)); nia.
Qed.

Lemma nearest_even_exact (n : Z) : Num.nearest_even n 1 = n.
Proof.
  unfold Num.nearest_even. rewrite Z.mod_1_r, Z.div_1_r. done.
Qed.

Lemma nearest_even_multiple (m d : Z) : 0 < d -> Num.nearest_even (m * d) d = m.
Proof.
  intros Hd. unfold Num.nearest_even.
  rewrite Z.mod_mul, Z.div_mul by lia.
  destruct (Z.ltb_spec (2 * 0) d); [done | lia].
Qed.

Lemma binade_lower (n d : Z) :
  0 < n -> 0 < d ->
  let k := Num.binade n d in
  let '(n', d') := Num.scaled k n d in d' <= n'.
Proof.
  intros Hn Hd. unfold Num.binade.
  set (k := Z.log2 n - Z.log2 d).
  destruct (Num.scaled k n d) as [n' d'] eqn:Hscaled.
  destruct (Z.leb_spec d' n') as [Hle | Hlt]; [by rewrite Hscaled |].
  pose proof (Z.log2_spec n Hn) as [Hn1 Hn2].
  pose proof (Z.log2_spec d Hd) as [Hd1 Hd2].
  pose proof (Z.log2_nonneg n). pose proof (Z.log2_nonneg d).
  unfold Num.scaled in *.
  destruct (Z.leb_spec 0 (k - 1)) as [Hk | Hk].
  - rewrite Z.succ_double_spec || idtac.
    assert (2 ^ Z.log2 n = 2 ^ (k - 1) * 2 ^ (Z.log2 d + 1)) as E.
    { rewrite <- Z.pow_add_r by lia. f_equal. lia. }
    assert (0 < 2 ^ (k - 1)) by (apply Z.pow_pos_nonneg; lia).
    replace (Z.succ (Z.log2 d)) with (Z.log2 d + 1) in * by lia.
    replace (Z.succ (Z.log2 n)) with (Z.log2 n + 1) in * by lia.
    nia.
  - assert (2 ^ Z.log2 n * 2 ^ (- (k - 1)) = 2 ^ (Z.log2 d + 1)) as E.
    { rewrite <- Z.pow_add_r by lia. f_equal. lia. }
    assert (0 < 2 ^ (- (k - 1))) by (apply Z.pow_pos_nonneg; lia).
    replace (Z.succ (Z.log2 d)) with (Z.log2 d + 1) in * by lia.
    nia.
Qed.


Lemma binade_integer (n : Z) : 0 < n -> Num.binade n 1 = Z.log2 n.
Proof.
  intros Hn. unfold Num.binade, Num.scaled.
  change (Z.log2 1) with 0. rewrite Z.sub_0_r.
  pose proof (Z.log2_nonneg n) as Hk. pose proof (Z.log2_spec n Hn) as [Hlow _].
  destruct (Z.leb_spec 0 (Z.log2 n)); [| lia].
  destruct (Z.leb_spec (1 * 2 ^ Z.log2 n) n); lia.
Qed.

Lemma binade_bounds (n d : Z) :
  Z.log2 n - Z.log2 d - 1 <= Num.binade n d <= Z.log2 n - Z.log2 d.
Proof.
  unfold Num.binade. destruct (Num.scaled _ n d) as [n' d'].
  destruct (d' <=? n'); lia.
Qed.

Lemma nearest_double_at (n d e : Z) :
  e = Z.max (Num.binade n d - 52) (- 1074) ->
  Num.nearest_double n d =
  (if 0 <=? e then Num.nearest_even n (d * 2 ^ e)
   else Num.nearest_even (n * 2 ^ (- e)) d, e).
Proof.
  intros ->. unfold Num.nearest_double, Num.scaled. by destruct (0 <=? _).
Qed.

(** An integer of at most 53 bits is a double. *)
Lemma of_integer_small (z : Z) : Z.abs z <= 2 ^ 53 -> Num.of_integer z = Fin z.
Proof.
  intros Hz. unfold Num.of_integer.
  destruct (Z.eqb_spec z 0) as [-> | Hz0]; [done |].
  destruct (Z.eq_dec (Z.abs z) (2 ^ 53)) as [Hmax | Hmax].
  { assert (z = 2 ^ 53 \/ z = - 2 ^ 53) as [-> | ->] by lia; by vm_compute. }
  assert (Hn : 0 < Z.abs z) by lia.
  unfold Num.nearest_double. rewrite binade_integer by done.
  assert (Hk : Z.log2 (Z.abs z) <= 52).
  { assert (Z.log2 (Z.abs z) < 53); [| lia]. apply Z.log2_lt_pow2; lia. }
  pose proof (Z.log2_nonneg (Z.abs z)) as Hk0.
  rewrite Z.max_l by lia. unfold Num.scaled.
  set (e := Z.log2 (Z.abs z) - 52).
  assert (Hbig : (2 ^ 1024 <=? Z.abs z) = false).
  { apply Z.leb_gt. assert (2 ^ 53 < 2 ^ 1024) by (by vm_compute). lia. }
  destruct (Z.leb_spec 0 e) as [He | He]; cbv beta iota zeta.
  - assert (e = 0) as -> by lia. change (1 * 2 ^ 0) with 1.
    rewrite nearest_even_exact. change (0 <=? 0) with true. cbv iota.
    rewrite Z.mul_1_r, Hbig. f_equal. rewrite Z.mul_comm. apply Z.abs_sgn.
  - rewrite nearest_even_exact.
    destruct (Z.leb_spec 0 e) as [| _]; [lia |].
    rewrite Z.div_mul by (apply Z.pow_nonzero; lia).
    rewrite Hbig. f_equal. rewrite Z.mul_comm. apply Z.abs_sgn.
Qed.

(** The floored quotient of two integers of at most 53 bits is not affected
    by the rounding of the quotient. *)
Lemma floor_quotient_small (x y : Z) :
  Z.abs x < 2 ^ 53 -> Z.abs y <= 2 ^ 53 -> x <> 0 -> y <> 0 ->
  Num.floor_quotient x y = x / y.
Proof.
  intros Hx Hy Hx0 Hy0. unfold Num.floor_quotient.
  set (a := Z.abs x). set (b := Z.abs y).
  assert (Ha : 0 < a) by (subst a; lia). assert (Hb : 0 < b) by (subst b; lia).
  pose proof (binade_bounds a b) as Hk.
  pose proof (binade_lower a b Ha Hb) as Hlow. cbv zeta in Hlow.
  set (k := Num.binade a b) in *.
  assert (Hla : 0 <= Z.log2 a <= 52).
  { split; [apply Z.log2_nonneg |].
    assert (Z.log2 a < 53); [| lia]. apply Z.log2_lt_pow2; subst a; lia. }
  assert (Hlb : 0 <= Z.log2 b <= 53).
  { split; [apply Z.log2_nonneg |].
    assert (Z.log2 b < 54); [| lia]. apply Z.log2_lt_pow2; [lia |].
    assert (2 ^ 53 < 2 ^ 54) by (by vm_compute). subst b. lia. }
  set (j := 52 - k). assert (Hj : 0 <= j) by lia.
  rewrite (nearest_double_at a b (- j)) by (subst j k; lia).
  destruct (Z.eq_dec j 0) as [Hj0 | Hj0].
  - (* the quotient is at least 2^52: with a < 2^53 the divisor is 1 *)
    assert (k = 52) as Hk52 by lia. rewrite Hk52 in Hlow. unfold Num.scaled in Hlow.
    simpl in Hlow. assert (b = 1) as Hb1.
    { assert (2 ^ 52 = 4503599627370496) as E by done. subst a. lia. }
    rewrite Hj0, Hb1. change (- 0) with 0. change (0 <=? 0) with true. cbv iota.
    change (1 * 2 ^ 0) with 1. rewrite nearest_even_exact, Z.mul_1_r.
    assert (y = 1 \/ y = -1) as [-> | ->] by (subst b; lia).
    + rewrite Z.div_1_r. subst a. lia.
    + rewrite <- (Z.div_unique x (-1) (- x) 0) by lia. subst a. lia.
  - destruct (Z.leb_spec 0 (- j)) as [| _]; [lia |]. rewrite Z.opp_involutive.
    set (P := 2 ^ j). assert (HP : 0 < P) by (apply Z.pow_pos_nonneg; lia).
    pose proof (nearest_even_spec (a * P) b Hb) as Hm.
    set (m := Num.nearest_even (a * P) b) in *.
    (* the lower bound of the binade: b * 2^52 <= a * P *)
    assert (Hbin : b * 2 ^ 52 <= a * P).
    { unfold Num.scaled in Hlow. destruct (Z.leb_spec 0 k) as [Hk0 | Hk0].
      - assert (2 ^ 52 = 2 ^ k * P) as ->
          by (subst P; rewrite <- Z.pow_add_r by lia; f_equal; lia).
        nia.
      - assert (P = 2 ^ (- k) * 2 ^ 52) as ->
          by (subst P; rewrite <- Z.pow_add_r by lia; f_equal; lia).
        assert (0 < 2 ^ 52) by done. nia. }
    assert (Hb2 : b < 2 * P).
    { assert (a * P < 2 ^ 53 * P) by (subst a; nia).
      assert (2 ^ 53 = 2 * 2 ^ 52) as E by done. nia. }
    (* by the signs of x and y *)
    assert (Hdiv : x / y = (Z.sgn x * Z.sgn y * a) / b).
    { assert ((x = a \/ x = - a) /\ (y = b \/ y = - b)) as [[Ex | Ex] [Ey | Ey]]
        by (subst a b; lia).
      - f_equal; [| done]. rewrite Ex at 1. rewrite Ex, Ey. nia.
      - rewrite Ex at 1. rewrite Ey at 1. rewrite <- Z.div_opp_opp by lia.
        rewrite Z.opp_involutive. f_equal. rewrite Ex, Ey. nia.
      - rewrite Ex at 1. rewrite Ey at 1. f_equal. rewrite Ex, Ey. nia.
      - rewrite Ex at 1. rewrite Ey at 1. rewrite Z.div_opp_opp by lia.
        f_equal. rewrite Ex, Ey. nia. }
    rewrite Hdiv.
    assert (Hs : Z.sgn x * Z.sgn y = 1 \/ Z.sgn x * Z.sgn y = -1) by nia.
    symmetry. destruct Hs as [-> | ->].
    + rewrite !Z.mul_1_l.
      pose proof (Z.div_mod a b ltac:(lia)) as Hab.
      pose proof (Z.mod_pos_bound a b Hb) as Hr.
      apply Z.div_unique_pos with (r := m - a / b * P); [| lia].
      set (q := a / b) in *. set (r := a mod b) in *. nia.
    + replace (-1 * a) with (- a) by lia. replace (-1 * m) with (- m) by lia.
      pose proof (Z.div_mod (- a) b ltac:(lia)) as Hab.
      pose proof (Z.mod_pos_bound (- a) b Hb) as Hr.
      apply Z.div_unique_pos with (r := - m - (- a) / b * P); [| lia].
      set (q := (- a) / b) in *. set (r := (- a) mod b) in *. nia.
Qed.

(** The double nearest to an integer other than 0 is not 0. *)
Lemma magnitude_positive (n : Z) :
  0 < n ->
  let '(m, e) := Num.nearest_double n 1 in
  0 < (if 0 <=? e then m * 2 ^ e else m / 2 ^ (- e)).
Proof.
  intros Hn. pose proof (Z.log2_nonneg n) as Hk.
  rewrite (nearest_double_at n 1 (Z.log2 n - 52))
    by (rewrite binade_integer by done; lia).
  destruct (Z.leb_spec 0 (Z.log2 n - 52)) as [He | He].
  - set (e := Z.log2 n - 52) in *.
    assert (HP : 0 < 2 ^ e) by (apply Z.pow_pos_nonneg; lia).
    pose proof (nearest_even_spec n (1 * 2 ^ e) ltac:(lia)) as Hm.
    pose proof (Z.log2_spec n Hn) as [Hlow _].
    assert (2 ^ Z.log2 n = 2 ^ 52 * 2 ^ e) as E
      by (rewrite <- Z.pow_add_r by lia; f_equal; lia).
    assert (0 < 2 ^ 52) by done. nia.
  - rewrite nearest_even_exact, Z.div_mul by (apply Z.pow_nonzero; lia). done.
Qed.

Lemma of_integer_opp (z : Z) :
  z <> 0 -> Num.of_integer (- z) = Num.neg (Num.of_integer z).
Proof.
  intros Hz. unfold Num.of_integer.
  destruct (Z.eqb_spec (- z) 0) as [| _]; [lia |].
  destruct (Z.eqb_spec z 0) as [| _]; [lia |].
  rewrite Z.abs_opp.
  pose proof (magnitude_positive (Z.abs z) ltac:(lia)) as Hpos.
  destruct (Num.nearest_double (Z.abs z) 1) as [m e].
  set (magnitude := if 0 <=? e then m * 2 ^ e else m / 2 ^ (- e)) in *.
  destruct (2 ^ 1024 <=? magnitude).
  - destruct (Z.ltb_spec (- z) 0), (Z.ltb_spec z 0); try done; lia.
  - unfold Num.neg.
    destruct (Z.eqb_spec (Z.sgn z * magnitude) 0) as [E | _]; [nia |].
    f_equal. rewrite Z.sgn_opp. lia.
Qed.

End Rounding.

(** ** The ALU *)

Section ALU_properties.

Lemma add_integers (a b : Z) :
  Z.abs (a + b) <= 2 ^ 53 -> Num.add (Fin a) (Fin b) = Fin (a + b).
Proof. intros Hsum. by apply of_integer_small. Qed.

Lemma sub_integers (a b : Z) :
  Z.abs (a - b) <= 2 ^ 53 -> Num.sub (Fin a) (Fin b) = Fin (a - b).
Proof.
  intros Hdifference. unfold Num.sub, Num.neg.
  destruct (Z.eqb_spec b 0) as [-> | _]; simpl.
  - f_equal. lia.
  - by rewrite of_integer_small by lia.
Qed.

Lemma mul_integers (a b : Z) :
  Z.abs (a * b) <= 2 ^ 53 ->
  Num.mathematical_value (Num.mul (Fin a) (Fin b)) = Some (a * b).
Proof.
  intros Hproduct. unfold Num.mul; simpl.
  destruct (Z.eqb_spec (a * b) 0) as [E | _]; [| by rewrite of_integer_small].
  rewrite E. by destruct (xorb _ _).
Qed.

Lemma floor_div_integers (a b : Z) :
  Z.abs a < 2 ^ 53 -> Z.abs b <= 2 ^ 53 -> b ≠ 0 ->
  Num.mathematical_value (Num.floor_div (Fin a) (Fin b)) = Some (a / b).
Proof.
  intros Ha Hb Hb0. unfold Num.floor_div; simpl.
  destruct (Z.eqb_spec b 0) as [| _]; [done |].
  destruct (Z.eqb_spec a 0) as [-> | Ha0]; [| by rewrite floor_quotient_small].
  rewrite Z.div_0_l by done. by destruct (xorb _ _).
Qed.

Lemma floor_div_by_zero (a : Z) :
  Num.floor_div (Fin a) (Fin 0) =
  if a =? 0 then NaN else if a <? 0 then NegInf else PosInf.
Proof.
  unfold Num.floor_div; simpl.
  destruct (a =? 0); [done |]. by destruct (a <? 0).
Qed.

Lemma unsupported_operation (operation : string) (x y : number) :
  operation ∉ ["ADD"; "SUB"; "MUL"; "DIV"] ->
  ALU.execute operation x y = Throw (UnsupportedOperation operation).
Proof.
  intros Hop. unfold ALU.execute.
  repeat match goal with
         | |- context [String.eqb operation ?s] =>
             destruct (String.eqb_spec operation s) as [-> | _];
             [exfalso; apply Hop; set_solver |]
         end.
  done.
Qed.

End ALU_properties.

(** C9, as the claim states it, fails: the sum of 2^53 and 1 is not a
    double, and ADD returns 2^53; the square of 94906267 is not a double
    either, and MUL returns the even integer below it. *)
Lemma ALU_execute_rounds :
  ALU.execute "ADD" (Fin (2 ^ 53)) (Fin 1) = Normal (Fin (2 ^ 53)) /\
  ALU.execute "ADD" (Fin (2 ^ 53)) (Fin 1) ≠ Normal (Fin (2 ^ 53 + 1)) /\
  ALU.execute "MUL" (Fin 94906267) (Fin 94906267) = Normal (Fin (94906267 * 94906267 - 1)).
Proof. by vm_compute. Qed.

(** C9, amended.  For all integers [a] and [b] of absolute value below 2^53
    the ALU computes [a + b] for ADD, [a - b] for SUB and a number whose value
    is [a * b] for MUL, each whenever that result is of absolute value at
    most 2^53, and, when [b] is not zero, a number whose value is the floored
    quotient for DIV, which is what [a / b] denotes on [Z] (a product or
    quotient that is zero may be the negative zero, whose value is 0 too);
    any operation other than these four throws the "Unsupported operation"
    error, whatever the operands. *)
Theorem ALU_execute_operations (a b : Z) :
  Z.abs a < 2 ^ 53 ->
  Z.abs b < 2 ^ 53 ->
  (Z.abs (a + b) <= 2 ^ 53 ->
   ALU.execute "ADD" (Fin a) (Fin b) = Normal (Fin (a + b))) /\
  (Z.abs (a - b) <= 2 ^ 53 ->
   ALU.execute "SUB" (Fin a) (Fin b) = Normal (Fin (a - b))) /\
  (Z.abs (a * b) <= 2 ^ 53 ->
   exists r, ALU.execute "MUL" (Fin a) (Fin b) = Normal r /\
             Num.mathematical_value r = Some (a * b)) /\
  (b ≠ 0 ->
   exists r, ALU.execute "DIV" (Fin a) (Fin b) = Normal r /\
             Num.mathematical_value r = Some (a / b)) /\
  (forall (operation : string) (x y : number),
     operation ∉ ["ADD"; "SUB"; "MUL"; "DIV"] ->
     ALU.execute operation x y = Throw (UnsupportedOperation operation)).
Proof.
  intros Ha Hb. split; [| split; [| split; [| split]]].
  - intros Hsum.
    change (ALU.execute "ADD" (Fin a) (Fin b)) with (Normal (Num.add (Fin a) (Fin b))).
    by rewrite add_integers.
  - intros Hdifference.
    change (ALU.execute "SUB" (Fin a) (Fin b)) with (Normal (Num.sub (Fin a) (Fin b))).
    by rewrite sub_integers.
  - intros Hproduct. eexists; split; [reflexivity | by apply mul_integers].
  - intros Hb0. eexists; split; [reflexivity | apply floor_div_integers; lia].
  - apply unsupported_operation.
Qed.

Lemma ALU_execute_operations_witness :
  ALU.execute "ADD" (Fin 7) (Fin (-2)) = Normal (Fin 5) /\
  ALU.execute "SUB" (Fin 7) (Fin (-2)) = Normal (Fin 9) /\
  ALU.execute "MUL" (Fin 7) (Fin (-2)) = Normal (Fin (-14)) /\
  ALU.execute "DIV" (Fin 7) (Fin (-2)) = Normal (Fin (-4)) /\
  ALU.execute "MOD" (Fin 7) (Fin (-2)) = Throw (UnsupportedOperation "MOD").
Proof.
  destruct (ALU_execute_operations 7 (-2)) as (Hadd & Hsub & _ & _ & Hother);
    [by vm_compute | by vm_compute |].
  split; [apply Hadd; by vm_compute |]. split; [apply Hsub; by vm_compute |].
  split; [by vm_compute |]. split; [by vm_compute |].
  apply Hother. by_computation.
Defined.

(** C3, as the claim states it, fails: dividing 1 by 0 throws nothing and
    returns the positive infinity. *)
Lemma ALU_div_by_zero_returns :
  ALU.execute "DIV" (Fin 1) (Fin 0) = Normal PosInf.
Proof. reflexivity. Qed.

(** C3, amended.  For every integer [a], DIV of [a] by 0 throws no error: it
    returns NaN when [a] is 0, the negative infinity when [a] is negative and
    the positive infinity when [a] is positive. *)
Theorem ALU_div_by_zero (a : Z) :
  ALU.execute "DIV" (Fin a) (Fin 0) =
  Normal (if a =? 0 then NaN else if a <? 0 then NegInf else PosInf).
Proof.
  change (ALU.execute "DIV" (Fin a) (Fin 0)) with (Normal (Num.floor_div (Fin a) (Fin 0))).
  by rewrite floor_div_by_zero.
Qed.

(** ** Storage *)

Section Storage_properties.

(** A new memory holds 0 at the addresses from 0 to [size - 1] and nothing
    elsewhere. *)
Lemma Storage_new_lookup (size address : Z) (m : Storage.t) :
  Storage.new size = Normal m ->
  Storage.memory m !! address =
  if (0 <=? address) && (address <? size) then Some (Fin 0) else None.
Proof.
  unfold Storage.new. destruct (_ && _); [| done]. intros [= <-]. simpl.
  destruct (Z.leb_spec 0 address), (Z.ltb_spec address size); simpl.
  1: apply lookup_gset_to_gmap_Some; split; [| done].
  2-4: apply lookup_gset_to_gmap_None.
  all: rewrite elem_of_list_to_set, elem_of_seqZ; lia.
Qed.

(** A write never throws; a read of the written address then returns the
    written number, and every other address reads as before. *)
Lemma Storage_read_write (address : Z) (data : number) (m : Storage.t) :
  exists m',
    Storage.write address data m = (Normal tt, m') /\
    Storage.read address m' = (Normal (Number data), m') /\
    forall other, other ≠ address ->
                  fst (Storage.read other m') = fst (Storage.read other m).
Proof.
  eexists. split; [reflexivity |]. split.
  - unfold Storage.read, gets. simpl. by rewrite lookup_insert_eq.
  - intros other Hne. unfold Storage.read, gets. simpl.
    by rewrite lookup_insert_ne.
Qed.

End Storage_properties.

(** C4, as the claim states it, fails: on a memory of 4 words, reading
    address 4 or address -1 returns [undefined] and writing 9 to address 4
    returns normally, after which address 4 reads 9; nothing is thrown. *)
Lemma Storage_out_of_range_no_error :
  exists m m',
    Storage.new 4 = Normal m /\
    Storage.read 4 m = (Normal Undefined, m) /\
    Storage.read (-1) m = (Normal Undefined, m) /\
    Storage.write 4 (Fin 9) m = (Normal tt, m') /\
    Storage.read 4 m' = (Normal (Number (Fin 9)), m').
Proof. do 2 eexists. repeat split. Qed.

(** C4, amended.  For a memory newly created with length [size] and an
    address below 0 or at least [size], neither call throws: [read] returns
    [undefined] and leaves the memory as it is, and [write] stores the value
    under that address, so that a [read] of the address then returns it. *)
Theorem Storage_out_of_range (size address : Z) (v : number) (m : Storage.t) :
  Storage.new size = Normal m ->
  address < 0 \/ size <= address ->
  Storage.read address m = (Normal Undefined, m) /\
  exists m', Storage.write address v m = (Normal tt, m') /\
             Storage.read address m' = (Normal (Number v), m').
Proof.
  intros Hnew Hrange. split.
  - unfold Storage.read, gets. rewrite (Storage_new_lookup size) by done.
    destruct (Z.leb_spec 0 address), (Z.ltb_spec address size); simpl;
      try done; lia.
  - destruct (Storage_read_write address v m) as (m' & Hw & Hr & _). eauto.
Qed.

Lemma Storage_out_of_range_witness :
  exists m,
    Storage.new 4 = Normal m /\
    Storage.read 7 m = (Normal Undefined, m) /\
    exists m', Storage.write 7 (Fin 9) m = (Normal tt, m') /\
               Storage.read 7 m' = (Normal (Number (Fin 9)), m').
Proof.
  eexists. split; [reflexivity |].
  apply (Storage_out_of_range 4 7 (Fin 9)); [reflexivity | lia].
Defined.

(** ** The fields of an instruction word *)

Section Fields.

Lemma to_int32_congruent (w : Z) :
  exists q, Num.to_int32 (Fin w) = w + 2 ^ 32 * q.
Proof.
  exists (- ((w + 2 ^ 31) / 2 ^ 32)). unfold Num.to_int32.
  pose proof (Z.div_mod (w + 2 ^ 31) (2 ^ 32)). lia.
Qed.

Lemma to_int32_small (v : Z) :
  - 2 ^ 31 <= v < 2 ^ 31 -> Num.to_int32 (Fin v) = v.
Proof. intros Hv. unfold Num.to_int32. rewrite Z.mod_small; lia. Qed.

(** Masking with four bits at position [k] keeps the digit of [x] there. *)
Lemma land_field (x k : Z) :
  0 <= k -> Z.land x (15 * 2 ^ k) = (x / 2 ^ k) mod 16 * 2 ^ k.
Proof.
  intros Hk.
  change 15 with (Z.ones 4). change 16 with (2 ^ 4).
  rewrite <- !Z.shiftl_mul_pow2, <- Z.land_ones, <- Z.shiftr_div_pow2 by lia.
  apply Z.bits_inj'. intros n Hn.
  rewrite Z.land_spec.
  destruct (Z.lt_ge_cases n k) as [Hlt | Hge].
  - rewrite !Z.shiftl_spec_low by lia. apply andb_false_r.
  - rewrite !Z.shiftl_spec_high, Z.land_spec, Z.shiftr_spec by lia.
    by replace (n - k + k) with n by lia.
Qed.

Lemma field_bits (w k : Z) :
  0 <= k <= 12 ->
  Z.shiftr (Num.to_int32 (Fin (Z.land (Num.to_int32 (Fin w)) (15 * 2 ^ k)))) k
  = (w / 2 ^ k) mod 16.
Proof.
  intros Hk.
  destruct (to_int32_congruent w) as [q ->].
  rewrite land_field by lia.
  assert (2 ^ 32 = 2 ^ (28 - k) * 16 * 2 ^ k) as E.
  { change 16 with (2 ^ 4). rewrite <- !Z.pow_add_r by lia. f_equal. lia. }
  replace (w + 2 ^ 32 * q) with (w + q * 2 ^ (28 - k) * 16 * 2 ^ k)
    by (rewrite E; ring).
  rewrite Z.div_add by lia.
  rewrite Z.mod_add by lia.
  pose proof (Z.mod_pos_bound (w / 2 ^ k) 16 ltac:(lia)) as Hf.
  assert (2 ^ k <= 2 ^ 12) by (apply Z.pow_le_mono_r; lia).
  assert (0 < 2 ^ k) by (apply Z.pow_pos_nonneg; lia).
  rewrite to_int32_small by nia.
  rewrite Z.shiftr_div_pow2, Z.div_mul by lia. done.
Qed.

(** The decoded fields of an integer word are its bits 15 to 12, 11 to 8,
    7 to 4 and 3 to 0. *)
Lemma opcode_bits (w : Z) : CPU.opcode (Number (Fin w)) = (w / 2 ^ 12) mod 16.
Proof. apply (field_bits w 12). lia. Qed.

Lemma operand1_bits (w : Z) : CPU.operand1 (Number (Fin w)) = (w / 2 ^ 8) mod 16.
Proof. apply (field_bits w 8). lia. Qed.

Lemma operand2_bits (w : Z) : CPU.operand2 (Number (Fin w)) = (w / 2 ^ 4) mod 16.
Proof. apply (field_bits w 4). lia. Qed.

Lemma destination_bits (w : Z) : CPU.destination (Number (Fin w)) = w mod 16.
Proof.
  unfold CPU.destination, Num.bit_and, Num.of_value.
  destruct (to_int32_congruent w) as [q ->].
  change (Num.to_int32 (Fin 15)) with (Z.ones 4).
  rewrite Z.land_ones by lia. change (2 ^ 4) with 16.
  replace (w + 2 ^ 32 * q) with (w + (q * 2 ^ 28) * 16) by lia.
  apply Z.mod_add. lia.
Qed.

End Fields.

(** ** The CPU cycle *)

Section CPU_properties.

(** The fetch returns the word under the instruction pointer and moves the
    pointer on by one; registers and memory are as before. *)
Lemma CPU_fetch (cpu : CPU.t) (memory : Storage.t) :
  CPU.on_controlUnit ControlUnit.fetchInstruction (cpu, memory) =
  (Normal (match Storage.memory memory
                   !! ControlUnit.instructionPointer (CPU.controlUnit cpu) with
           | Some data => Number data
           | None => Undefined
           end),
   ({| CPU.registers := CPU.registers cpu;
       CPU.controlUnit :=
         {| ControlUnit.instructionPointer :=
              ControlUnit.instructionPointer (CPU.controlUnit cpu) + 1 |} |},
    memory)).
Proof. reflexivity. Qed.

Lemma RegisterFile_read_Normal (index : Z) (regs : RegisterFile.t) (n : number) :
  fst (RegisterFile.read index regs) = Normal n <->
  element regs index = Some {| Register.value := n |}.
Proof.
  unfold RegisterFile.read. destruct (element regs index) as [[v] |]; simpl.
  - split; intros [= ->]; done.
  - split; intros [=].
Qed.

End CPU_properties.

(** C1.  On a CPU whose instruction pointer is 0 and whose registers R1 and
    R2 hold 5 and 10, with the word 0x1120 at address 0 of the memory: the
    word decodes to opcode 1, operand1 1, operand2 2 and destination 0, and
    one call of [execute] returns normally, leaves 15 in R0, every other
    register and the memory as they were, and the instruction pointer
    at 1. *)
Theorem CPU_execute_add_scenario (cpu : CPU.t) (memory : Storage.t) :
  ControlUnit.instructionPointer (CPU.controlUnit cpu) = 0 ->
  fst (Storage.read 0 memory) = Normal (Number (Fin 0x1120)) ->
  fst (RegisterFile.read 1 (CPU.registers cpu)) = Normal (Fin 5) ->
  fst (RegisterFile.read 2 (CPU.registers cpu)) = Normal (Fin 10) ->
  (CPU.opcode (Number (Fin 0x1120)) = 0x1 /\
   CPU.operand1 (Number (Fin 0x1120)) = 1 /\
   CPU.operand2 (Number (Fin 0x1120)) = 2 /\
   CPU.destination (Number (Fin 0x1120)) = 0) /\
  exists cpu',
    CPU.execute (cpu, memory) = (Normal tt, (cpu', memory)) /\
    fst (RegisterFile.read 0 (CPU.registers cpu')) = Normal (Fin 15) /\
    ControlUnit.instructionPointer (CPU.controlUnit cpu') = 1 /\
    (forall index, index ≠ 0 ->
       element (CPU.registers cpu') index = element (CPU.registers cpu) index).
Proof.
  intros Hip Hword H1 H2. split; [done |].
  destruct cpu as [regs [ip]]. simpl in *. subst ip.
  apply RegisterFile_read_Normal in H1, H2.
  destruct regs as [| r0 [| r1 [| r2 regs]]]; try done.
  injection H1 as ->. injection H2 as ->.
  unfold CPU.execute, mbind, M_bind. rewrite CPU_fetch.
  injection Hword as Hword.
  cbn [ControlUnit.instructionPointer CPU.controlUnit]. rewrite Hword.
  eexists. split; [reflexivity |]. split; [reflexivity |]. split; [reflexivity |].
  intros index Hne. simpl. unfold element.
  destruct (Z.leb_spec 0 index); [| done].
  destruct (Z.to_nat index) as [| n] eqn:E; [lia | done].
Qed.

Lemma CPU_execute_add_scenario_witness :
  exists cpu',
    CPU.execute (example_cpu, example_memory) = (Normal tt, (cpu', example_memory)) /\
    fst (RegisterFile.read 0 (CPU.registers cpu')) = Normal (Fin 15) /\
    ControlUnit.instructionPointer (CPU.controlUnit cpu') = 1.
Proof.
  destruct (CPU_execute_add_scenario example_cpu example_memory)
    as (_ & cpu' & Hrun & Hr0 & Hip & _); [reflexivity .. |].
  exists cpu'. auto.
Defined.

(** C8.  When the word fetched has an opcode field other than 1 and 2,
    [execute] throws the "Unknown opcode" error carrying that field; the
    registers and the memory are as before the call (the instruction pointer
    has moved on by one).  For an integer word the field is its bits 15 to
    12. *)
Theorem CPU_execute_unknown_opcode
    (cpu : CPU.t) (memory : Storage.t) (instruction : value) :
  fst (Storage.read (ControlUnit.instructionPointer (CPU.controlUnit cpu)) memory)
    = Normal instruction ->
  CPU.opcode instruction ≠ 0x1 ->
  CPU.opcode instruction ≠ 0x2 ->
  CPU.execute (cpu, memory) =
    (Throw (UnknownOpcode (CPU.opcode instruction)),
     ({| CPU.registers := CPU.registers cpu;
         CPU.controlUnit :=
           {| ControlUnit.instructionPointer :=
                ControlUnit.instructionPointer (CPU.controlUnit cpu) + 1 |} |},
      memory)) /\
  (forall w : Z, instruction = Number (Fin w) ->
                 CPU.opcode instruction = (w / 2 ^ 12) mod 16).
Proof.
  intros Hfetch H1 H2. split; [| intros w ->; apply opcode_bits].
  unfold CPU.execute, mbind, M_bind. rewrite CPU_fetch.
  injection Hfetch as ->.
  destruct (Z.eqb_spec (CPU.opcode instruction) 1); [done |].
  destruct (Z.eqb_spec (CPU.opcode instruction) 2); [done |].
  reflexivity.
Qed.

Lemma CPU_execute_unknown_opcode_witness :
  let memory := snd (Storage.write 0 (Fin 0x9120) example_memory) in
  CPU.execute (example_cpu, memory) =
    (Throw (UnknownOpcode 0x9),
     ({| CPU.registers := CPU.registers example_cpu;
         CPU.controlUnit := {| ControlUnit.instructionPointer := 1 |} |},
      memory)).
Proof.
  apply (CPU_execute_unknown_opcode example_cpu _ (Number (Fin 0x9120)));
    [reflexivity | by vm_compute ..].
Defined.

(** ** The scheduler *)

Section Scheduler_properties.

(** With the cursor inside the queue, [schedule] returns the entry under the
    cursor and moves the cursor on by one, back to 0 after the last
    entry. *)
Lemma schedule_at_cursor (s : Scheduler.t) (p : loc) :
  Scheduler.processQueue s !! Scheduler.currentProcessIndex s = Some p ->
  Scheduler.schedule s =
  (Normal (Some p),
   {| Scheduler.processQueue := Scheduler.processQueue s;
      Scheduler.currentProcessIndex :=
        ((Scheduler.currentProcessIndex s + 1)
           mod length (Scheduler.processQueue s))%nat |}).
Proof.
  intros Hp. unfold Scheduler.schedule.
  destruct (decide _) as [E | _]; [| by rewrite Hp].
  apply lookup_lt_Some in Hp. lia.
Qed.

(** [preempt] without a running process in the queue changes nothing. *)
Lemma preempt_none_running (s : Scheduler.t) (heap : list Process.t) :
  Forall (fun p => Scheduler.is_running heap p = false) (Scheduler.processQueue s) ->
  Scheduler.preempt (s, heap) = (Normal tt, (s, heap)).
Proof.
  intros Hnone. unfold Scheduler.preempt.
  destruct (List.find _ _) as [p |] eqn:Hfind; [| done].
  apply List.find_some in Hfind as [Hin Hrun].
  rewrite Forall_forall in Hnone. apply list_elem_of_In in Hin.
  by rewrite (Hnone p Hin) in Hrun.
Qed.

End Scheduler_properties.

(** C7.  On the queue [p0, p1, p2] with the cursor at 0, four calls of
    [schedule] return p0, p1, p2 and p0 again; on an empty queue [schedule]
    returns [null] and changes nothing; [schedule] never changes the queue;
    and with the cursor inside the queue it returns the entry under the
    cursor, whatever the state of that process is, leaving the processes
    untouched. *)
Theorem Scheduler_round_robin :
  (forall p0 p1 p2 : loc,
     exists s1 s2 s3 s4,
       Scheduler.schedule
         {| Scheduler.processQueue := [p0; p1; p2];
            Scheduler.currentProcessIndex := 0 |}
         = (Normal (Some p0), s1) /\
       Scheduler.schedule s1 = (Normal (Some p1), s2) /\
       Scheduler.schedule s2 = (Normal (Some p2), s3) /\
       Scheduler.schedule s3 = (Normal (Some p0), s4)) /\
  (forall s, Scheduler.processQueue s = [] ->
             Scheduler.schedule s = (Normal None, s)) /\
  (forall s, Scheduler.processQueue (snd (Scheduler.schedule s))
             = Scheduler.processQueue s) /\
  (forall (os : SimpleOS.t) (p : loc),
     Scheduler.processQueue (SimpleOS.scheduler os)
       !! Scheduler.currentProcessIndex (SimpleOS.scheduler os) = Some p ->
     fst (SimpleOS.on_scheduler Scheduler.schedule os) = Normal (Some p) /\
     SimpleOS.heap (snd (SimpleOS.on_scheduler Scheduler.schedule os))
     = SimpleOS.heap os).
Proof.
  repeat split.
  - intros p0 p1 p2. do 4 eexists. repeat split.
  - intros s Hs. unfold Scheduler.schedule. rewrite Hs. reflexivity.
  - intros s. unfold Scheduler.schedule. by destruct (decide _).
  - unfold SimpleOS.on_scheduler, zoom. by rewrite (schedule_at_cursor _ p).
  - unfold SimpleOS.on_scheduler, zoom. by destruct (Scheduler.schedule _).
Qed.

Lemma Scheduler_round_robin_witness :
  (exists s1 s2 s3 s4,
     Scheduler.schedule
       {| Scheduler.processQueue := [3; 5; 7]%nat;
          Scheduler.currentProcessIndex := 0 |}
       = (Normal (Some 3%nat), s1) /\
     Scheduler.schedule s1 = (Normal (Some 5%nat), s2) /\
     Scheduler.schedule s2 = (Normal (Some 7%nat), s3) /\
     Scheduler.schedule s3 = (Normal (Some 3%nat), s4)) /\
  Scheduler.schedule Scheduler.new = (Normal None, Scheduler.new) /\
  fst (SimpleOS.on_scheduler Scheduler.schedule one_process) = Normal (Some 0%nat).
Proof.
  destruct Scheduler_round_robin as (Hround & Hempty & _ & Hcursor).
  split; [apply Hround |]. split; [apply Hempty; reflexivity |].
  apply Hcursor. reflexivity.
Defined.

(** ** The coordinator *)

Section SimpleOS_properties.

Lemma on_process_valid {A} (l : loc) (m : M Process.t A)
      (os : SimpleOS.t) (p : Process.t) :
  SimpleOS.heap os !! l = Some p ->
  SimpleOS.on_process l m os =
  (fst (m p), SimpleOS.set_heap (<[l := snd (m p)]> (SimpleOS.heap os)) os).
Proof. intros Hp. unfold SimpleOS.on_process. rewrite Hp. by destruct (m p). Qed.

Lemma set_heap_same (os : SimpleOS.t) :
  SimpleOS.set_heap (SimpleOS.heap os) os = os.
Proof. by destruct os. Qed.

Lemma same_frame_refl os : same_frame os os.
Proof. by repeat split. Qed.

Lemma same_frame_trans os1 os2 os3 :
  same_frame os1 os2 -> same_frame os2 os3 -> same_frame os1 os3.
Proof.
  unfold same_frame.
  intros (-> & -> & -> & -> & ->) (-> & -> & -> & -> & ->). done.
Qed.

Lemma same_frame_length os os' :
  same_frame os os' -> length (SimpleOS.heap os') = length (SimpleOS.heap os).
Proof.
  intros (_ & _ & _ & _ & Hpids).
  by rewrite <- (length_fmap Process.pid), Hpids, length_fmap.
Qed.

Lemma on_process_frame {A} (l : loc) (m : M Process.t A) (os : SimpleOS.t) :
  keeps_pid m -> same_frame os (snd (SimpleOS.on_process l m os)).
Proof.
  intros Hm. unfold SimpleOS.on_process.
  destruct (SimpleOS.heap os !! l) as [p |] eqn:Hp; [| apply same_frame_refl].
  specialize (Hm p). destruct (m p) as [c p']. repeat split. simpl in *.
  rewrite list_fmap_insert, Hm. apply list_insert_id.
  by rewrite list_lookup_fmap, Hp.
Qed.

Lemma keeps_pid_gets {A} (f : Process.t -> A) : keeps_pid (gets f).
Proof. by intros p. Qed.

Lemma keeps_pid_set_state (s : Process.state_t) :
  keeps_pid (modify (Process.set_state s)).
Proof. by intros p. Qed.

Lemma keeps_pid_on_memory {A} (m : M Storage.t A) : keeps_pid (Process.on_memory m).
Proof.
  intros p. unfold Process.on_memory, zoom. by destruct (m (Process.memory p)).
Qed.

Lemma keeps_pid_cpu_cycle : keeps_pid SimpleOS.cpu_cycle.
Proof.
  intros p. unfold SimpleOS.cpu_cycle.
  destruct (CPU.new _) as [cpu | e]; [| done].
  by destruct (CPU.execute _) as [c [cpu' memory]].
Qed.

Lemma on_process_modify (l : loc) (f : Process.t -> Process.t) (os : SimpleOS.t) :
  (l < length (SimpleOS.heap os))%nat ->
  fst (SimpleOS.on_process l (modify f) os) = Normal tt.
Proof.
  intros Hl. apply lookup_lt_is_Some_2 in Hl as [p Hp].
  by rewrite (on_process_valid l _ os p Hp).
Qed.

(** Whatever the CPU cycle does, [dispatch] returns normally: an exception
    of the cycle is caught. *)
Lemma dispatch_returns (l : loc) (os : SimpleOS.t) :
  (l < length (SimpleOS.heap os))%nat ->
  fst (SimpleOS.dispatch l os) = Normal tt /\
  same_frame os (snd (SimpleOS.dispatch l os)).
Proof.
  intros Hl. unfold SimpleOS.dispatch, mbind, M_bind.
  pose proof (on_process_frame l (gets Process.state) os (keeps_pid_gets _)) as F0.
  destruct (lookup_lt_is_Some_2 _ _ Hl) as [p Hp].
  rewrite (on_process_valid l _ os p Hp) in *. simpl fst in *. simpl snd in *.
  set (os0 := SimpleOS.set_heap _ os) in *.
  destruct (decide _) as [Hready | _]; [| done].
  assert (Hl0 : (l < length (SimpleOS.heap os0))%nat)
    by (by rewrite (same_frame_length os os0)).
  pose proof (on_process_frame l _ os0 (keeps_pid_set_state Process.running)) as F1.
  pose proof (on_process_modify l (Process.set_state Process.running) os0 Hl0) as R1.
  destruct (SimpleOS.on_process l (modify (Process.set_state Process.running)) os0)
    as [c1 os1].
  simpl in R1, F1. subst c1.
  assert (Hl1 : (l < length (SimpleOS.heap os1))%nat)
    by (by rewrite (same_frame_length os0 os1)).
  unfold try_catch.
  pose proof (on_process_frame l _ os1 keeps_pid_cpu_cycle) as F2.
  destruct (SimpleOS.on_process l SimpleOS.cpu_cycle os1) as [c2 os2]. simpl in F2.
  assert (Hl2 : (l < length (SimpleOS.heap os2))%nat)
    by (by rewrite (same_frame_length os1 os2)).
  pose proof (on_process_frame l _ os2 (keeps_pid_set_state Process.terminated)) as F3.
  pose proof (on_process_modify l (Process.set_state Process.terminated) os2 Hl2) as R3.
  assert (F : same_frame os
                (snd (SimpleOS.on_process l
                        (modify (Process.set_state Process.terminated)) os2)))
    by eauto using same_frame_trans.
  destruct c2 as [[] | err]; simpl.
  - destruct (SimpleOS.on_process l (modify _) os2) as [c3 os3].
    simpl in R3. by subst c3.
  - done.
Qed.

End SimpleOS_properties.

(** C10.  When the table maps [pid] to a process whose state is not ready,
    [executeProcess] returns normally and the whole coordinator, the process
    with its state, memory, registers and instruction pointer included, is
    after the call what it was before. *)
Theorem executeProcess_not_ready
    (os : SimpleOS.t) (pid : Z) (l : loc) (p : Process.t) :
  SimpleOS.processes os !! pid = Some l ->
  SimpleOS.heap os !! l = Some p ->
  Process.state p ≠ Process.ready ->
  SimpleOS.executeProcess pid os = (Normal tt, os).
Proof.
  intros Hpid Hl Hstate.
  unfold SimpleOS.executeProcess, mbind, M_bind, gets. rewrite Hpid.
  unfold SimpleOS.dispatch, mbind, M_bind.
  rewrite (on_process_valid l _ os p Hl). simpl.
  destruct (decide _); [done |].
  by rewrite list_insert_id, set_heap_same.
Qed.

Lemma executeProcess_not_ready_witness :
  let os := snd (SimpleOS.executeProcess 42 one_process) in
  (Process.state <$> SimpleOS.heap os) = [Process.terminated] /\
  SimpleOS.executeProcess 42 os = (Normal tt, os).
Proof.
  split; [reflexivity |].
  eapply (executeProcess_not_ready _ 42 0%nat); [reflexivity | reflexivity | done].
Defined.

(** ** Creating processes *)

(** What a successful [createProcess] does: the new process carries the
    drawn number as its pid, is appended to the heap and to the queue, and
    takes the entry of that pid in the table, replacing what was there. *)
Lemma createProcess_Normal (random memorySize registerCount : Z)
      (os os' : SimpleOS.t) (l : loc) :
  SimpleOS.createProcess random memorySize registerCount os = (Normal l, os') ->
  exists p,
    Process.new random memorySize registerCount = Normal p /\
    Process.pid p = random /\
    l = length (SimpleOS.heap os) /\
    SimpleOS.heap os' = (SimpleOS.heap os ++ [p])%list /\
    Scheduler.processQueue (SimpleOS.scheduler os')
      = (Scheduler.processQueue (SimpleOS.scheduler os) ++ [l])%list /\
    Scheduler.currentProcessIndex (SimpleOS.scheduler os')
      = Scheduler.currentProcessIndex (SimpleOS.scheduler os) /\
    SimpleOS.processes os' = <[random := l]> (SimpleOS.processes os).
Proof.
  unfold SimpleOS.createProcess, mbind, M_bind, SimpleOS.allocate.
  destruct (Process.new random memorySize registerCount) as [p | e] eqn:Hnew;
    [| done].
  simpl. intros [= <- <-]. exists p. repeat split.
  unfold Process.new in Hnew.
  destruct (Storage.new _); [| done]. destruct (RegisterFile.new _); [| done].
  by injection Hnew as <-.
Qed.


(** A [createProcess] that throws, because an array cannot be created with
    the size asked for, changes nothing. *)
Lemma createProcess_Throw (random memorySize registerCount : Z)
      (os os' : SimpleOS.t) (e : error) :
  SimpleOS.createProcess random memorySize registerCount os = (Throw e, os') ->
  os' = os.
Proof.
  unfold SimpleOS.createProcess, mbind, M_bind, SimpleOS.allocate.
  destruct (Process.new random memorySize registerCount) as [p | e']; [done |].
  by intros [= _ <-].
Qed.

(** ** Invariants of the coordinator, and the loop of [run] *)

Section Coordinator_invariants.

Lemma table_by_pid_valid (os : SimpleOS.t) (pid : Z) (l : loc) :
  table_by_pid os -> SimpleOS.processes os !! pid = Some l ->
  (l < length (SimpleOS.heap os))%nat.
Proof. intros Ht Hl. destruct (Ht pid l Hl) as (p & Hp & _). by eapply lookup_lt_Some. Qed.

Lemma wf_frame (os os' : SimpleOS.t) : same_frame os os' -> wf os -> wf os'.
Proof.
  intros F (Hq & Hv & Hc & Ht).
  pose proof (same_frame_length os os' F) as Hlen.
  destruct F as (Hs & _ & _ & Hp & Hpids).
  unfold wf. rewrite Hs, Hlen. repeat split; try done.
  intros pid l. rewrite Hp. intros Hl.
  destruct (Ht pid l Hl) as (p & Hheap & Hpid).
  assert ((Process.pid <$> SimpleOS.heap os') !! l = Some pid) as Hl'
    by (by rewrite Hpids, list_lookup_fmap, Hheap, <- Hpid).
  rewrite list_lookup_fmap in Hl'. apply fmap_Some in Hl' as (p' & ? & ?). eauto.
Qed.

Lemma wf_new : wf SimpleOS.new.
Proof.
  repeat split; simpl; [constructor | lia |].
  intros pid p. simpl. by rewrite lookup_empty.
Qed.

Lemma wf_createProcess (random memorySize registerCount : Z) (os : SimpleOS.t) :
  wf os -> wf (snd (SimpleOS.createProcess random memorySize registerCount os)).
Proof.
  intros (Hq & Hv & Hc & Ht).
  destruct (SimpleOS.createProcess random memorySize registerCount os)
    as [[l | e] os'] eqn:Hcreate.
  - apply createProcess_Normal in Hcreate
      as (p & _ & Hpid & -> & Hheap & Hqueue & Hcursor & Htable).
    unfold wf, table_by_pid. simpl. rewrite Hheap, Hqueue, Hcursor, Htable.
    rewrite !length_app. simpl. repeat split.
    + lia.
    + apply Forall_app. split.
      * eapply Forall_impl; [exact Hv |]. simpl. lia.
      * constructor; [lia | constructor].
    + lia.
    + intros pid l.
      destruct (decide (random = pid)) as [-> | Hne].
      * rewrite lookup_insert_eq. intros [= <-]. exists p.
        by rewrite lookup_app_r, Nat.sub_diag.
      * rewrite lookup_insert_ne by done. intros Hl.
        destruct (Ht pid l Hl) as (p' & Hp' & Hpid').
        exists p'. by rewrite lookup_app_l by (by eapply lookup_lt_Some).
  - apply createProcess_Throw in Hcreate as ->. by repeat split.
Qed.

Lemma loadProgramIntoProcess_frame (pid : Z) (program : string) (os : SimpleOS.t) :
  same_frame os (snd (SimpleOS.loadProgramIntoProcess pid program os)).
Proof.
  unfold SimpleOS.loadProgramIntoProcess, mbind, M_bind, gets.
  destruct (SimpleOS.processes os !! pid) as [l |].
  - apply on_process_frame, keeps_pid_on_memory.
  - apply same_frame_refl.
Qed.

Lemma executeProcess_frame (pid : Z) (os : SimpleOS.t) :
  wf os -> same_frame os (snd (SimpleOS.executeProcess pid os)).
Proof.
  intros (_ & _ & _ & Ht).
  unfold SimpleOS.executeProcess, mbind, M_bind, gets.
  destruct (SimpleOS.processes os !! pid) as [l |] eqn:Hl.
  - apply dispatch_returns. by eapply table_by_pid_valid.
  - apply same_frame_refl.
Qed.

Lemma preemptProcess_frame (os : SimpleOS.t) :
  same_frame os (snd (SimpleOS.preemptProcess os)).
Proof.
  unfold SimpleOS.preemptProcess, zoom, Scheduler.preempt.
  destruct (List.find _ _); repeat split. simpl.
  rewrite (list_fmap_alter _ _ id) by (by apply Forall_true).
  by apply list_alter_id.
Qed.

(** On a coordinator without processes [run] returns at once, with the timer
    stopped. *)
Lemma run_empty (fuel : nat) (os : SimpleOS.t) :
  Scheduler.processQueue (SimpleOS.scheduler os) = [] ->
  exists os',
    SimpleOS.run fuel os = Some (Normal tt, os') /\
    Timer.timerId (SimpleOS.timer os') = None /\
    (Host.next_id (SimpleOS.host os) ∉ Host.intervals (SimpleOS.host os')) /\
    SimpleOS.scheduler os' = SimpleOS.scheduler os /\
    SimpleOS.processes os' = SimpleOS.processes os /\
    SimpleOS.heap os' = SimpleOS.heap os.
Proof.
  intros Hq. unfold SimpleOS.run, mbind, M_bind, SimpleOS.on_scheduler, zoom.
  unfold Scheduler.schedule. rewrite Hq. simpl.
  assert (SimpleOS.run_loop fuel None = fun self => Some (Normal tt, self)) as ->
    by (by destruct fuel).
  eexists. split; [reflexivity |]. simpl.
  split; [done |]. split; [| by destruct os].
  rewrite elem_of_difference, elem_of_singleton. tauto.
Qed.

Lemma schedule_live (os : SimpleOS.t) :
  queue_live os ->
  exists p os',
    SimpleOS.on_scheduler Scheduler.schedule os = (Normal (Some p), os') /\
    (p < length (SimpleOS.heap os))%nat /\
    SimpleOS.heap os' = SimpleOS.heap os /\
    SimpleOS.timer os' = SimpleOS.timer os /\
    SimpleOS.host os' = SimpleOS.host os /\
    queue_live os'.
Proof.
  intros [Hcursor Hqueue].
  destruct (lookup_lt_is_Some_2 _ _ Hcursor) as [p Hp].
  exists p. eexists. unfold SimpleOS.on_scheduler, zoom.
  rewrite (schedule_at_cursor _ p Hp). split; [reflexivity |].
  split; [by eapply Forall_lookup_1 in Hqueue |].
  repeat split; simpl; [| done].
  apply Nat.mod_upper_bound. lia.
Qed.

Lemma run_body_live (p : loc) (os : SimpleOS.t) :
  queue_live os ->
  (p < length (SimpleOS.heap os))%nat ->
  exists p' os',
    SimpleOS.run_body p os = (Normal (Some p'), os') /\
    (p' < length (SimpleOS.heap os'))%nat /\
    SimpleOS.timer os' = SimpleOS.timer os /\
    SimpleOS.host os' = SimpleOS.host os /\
    queue_live os'.
Proof.
  intros Hlive Hp. unfold SimpleOS.run_body, mbind, M_bind.
  destruct (dispatch_returns p os Hp) as [R F].
  pose proof (same_frame_length _ _ F) as Hlen. destruct F as (Hs & Ht & Hh & _ & _).
  destruct (SimpleOS.dispatch p os) as [c os1]. simpl in *. subst c.
  assert (Hlive1 : queue_live os1).
  { unfold queue_live. rewrite Hs, Hlen. exact Hlive. }
  destruct (schedule_live os1 Hlive1)
    as (p' & os' & -> & Hp' & Hheap & Ht' & Hh' & Hlive').
  exists p', os'. rewrite Hheap, Ht', Hh'. done.
Qed.

(** The loop does not end while the queue is not empty: [schedule] hands out
    a process on every turn, terminated or not. *)
Lemma run_loop_diverges (fuel : nat) (p : loc) (os : SimpleOS.t) :
  queue_live os ->
  (p < length (SimpleOS.heap os))%nat ->
  SimpleOS.run_loop fuel (Some p) os = None.
Proof.
  revert p os. induction fuel as [| fuel IH]; intros p os Hlive Hp; [done |].
  simpl. destruct (run_body_live p os Hlive Hp) as (p' & os' & -> & Hp' & _ & _ & Hlive').
  by apply IH.
Qed.

Lemma on_timer_start (os : SimpleOS.t) :
  exists os',
    SimpleOS.on_timer Timer.start os = (Normal tt, os') /\
    SimpleOS.heap os' = SimpleOS.heap os /\
    SimpleOS.scheduler os' = SimpleOS.scheduler os /\
    Timer.timerId (SimpleOS.timer os') = Some (Host.next_id (SimpleOS.host os)) /\
    Host.next_id (SimpleOS.host os) ∈ Host.intervals (SimpleOS.host os').
Proof.
  eexists. split; [reflexivity |]. repeat split. simpl.
  apply elem_of_union_l. by apply elem_of_singleton.
Qed.

Lemma run_diverges (fuel : nat) (os : SimpleOS.t) :
  queue_live os -> SimpleOS.run fuel os = None.
Proof.
  intros Hlive. unfold SimpleOS.run, mbind, M_bind.
  destruct (schedule_live os Hlive) as (p & os' & -> & Hp & Hheap & _ & _ & Hlive').
  destruct (on_timer_start os') as (os'' & -> & Hheap' & Hsched & _).
  simpl. rewrite run_loop_diverges; [done | |].
  - unfold queue_live. rewrite Hsched, Hheap'. exact Hlive'.
  - by rewrite Hheap', Hheap.
Qed.

Lemma wf_queue_live (os : SimpleOS.t) :
  wf os -> SimpleOS.heap os ≠ [] -> queue_live os.
Proof.
  intros (Hq & Hv & Hc & _) Hne. split; [| done].
  destruct (SimpleOS.heap os); [done |]. simpl in Hq. lia.
Qed.

Lemma reachable_wf (os : SimpleOS.t) : reachable os -> wf os.
Proof.
  induction 1 as [| os r ms rc _ IH | os pid program _ IH | os pid _ IH | os _ IH
                  | os fuel c os' _ IH Hrun].
  - apply wf_new.
  - by apply wf_createProcess.
  - eapply wf_frame; [apply loadProgramIntoProcess_frame | done].
  - eapply wf_frame; [by apply executeProcess_frame | done].
  - eapply wf_frame; [apply preemptProcess_frame | done].
  - destruct (SimpleOS.heap os) as [| p heap] eqn:Hheap.
    + destruct IH as (Hq & Hv & Hc & Ht).
      rewrite Hheap in Hq. apply length_zero_iff_nil in Hq.
      destruct (run_empty fuel os Hq) as (os'' & Hrun' & _ & _ & Hs & Hp & Hh).
      rewrite Hrun' in Hrun. simplify_eq.
      rewrite Hq in Hc.
      unfold wf, table_by_pid. rewrite Hs, Hp, Hh, Hheap, Hq. repeat split; try done.
      intros pid l Hl. destruct (Ht pid l Hl) as (p' & Hp' & _).
      by rewrite Hheap in Hp'.
    + rewrite run_diverges in Hrun; [done |].
      apply wf_queue_live; [done | by rewrite Hheap].
Qed.

(** Once a process has been created, [run] does not return, however many
    turns of its loop are allowed. *)
Lemma run_never_returns (os : SimpleOS.t) (fuel : nat) :
  reachable os -> SimpleOS.heap os ≠ [] -> SimpleOS.run fuel os = None.
Proof.
  intros Hreach Hne. apply run_diverges, wf_queue_live; [by apply reachable_wf | done].
Qed.

End Coordinator_invariants.

(** C2.  The claim fails on the coordinator with one process: [run] does not
    return, however many turns its loop is given.  After the first turn the
    only process is terminated, and still [schedule] hands it out again, so
    the loop goes on; the interval timer started before the loop is never
    stopped. *)
Theorem run_with_one_process_never_returns :
  (forall fuel, SimpleOS.run fuel one_process = None) /\
  exists os1 os2,
    (process ← SimpleOS.on_scheduler Scheduler.schedule;
     SimpleOS.on_timer Timer.start;;
     mret process) one_process = (Normal (Some 0%nat), os1) /\
    SimpleOS.run_body 0 os1 = (Normal (Some 0%nat), os2) /\
    (Process.state <$> SimpleOS.heap os2) = [Process.terminated] /\
    Timer.timerId (SimpleOS.timer os2) = Some 0%nat /\
    0%nat ∈ Host.intervals (SimpleOS.host os2).
Proof.
  split.
  - intros fuel. apply run_never_returns; [| done].
    apply reachable_createProcess, reachable_new.
  - do 2 eexists. split; [reflexivity |]. split; [reflexivity |].
    split; [reflexivity |]. split; [reflexivity |]. by_computation.
Qed.

(** ** Process identifiers *)

Section Pids.

Lemma Process_new_valid (pid memorySize registerCount : Z) :
  valid_sizes (pid, memorySize, registerCount) ->
  exists p, Process.new pid memorySize registerCount = Normal p /\ Process.pid p = pid.
Proof.
  intros [[Hlow Hhigh] Hregs]. simpl in *.
  unfold Process.new, Storage.new, RegisterFile.new.
  apply Z.leb_le in Hlow. apply Z.ltb_lt in Hhigh, Hregs.
  rewrite Hlow, Hhigh, Hregs. simpl. eauto.
Qed.

(** The processes of the heap after a sequence of calls of valid sizes: those
    before it, then one per call, with the pid drawn in that call. *)
Lemma createProcesses_pids (calls : list call) (os : SimpleOS.t) :
  Forall valid_sizes calls ->
  Process.pid <$> SimpleOS.heap (createProcesses calls os)
  = ((Process.pid <$> SimpleOS.heap os) ++ (draw <$> calls))%list.
Proof.
  revert os. induction calls as [| [[random memorySize] registerCount] calls IH];
    intros os Hvalid.
  - by rewrite app_nil_r.
  - apply Forall_cons in Hvalid as [Hcall Hvalid].
    change (createProcesses ((random, memorySize, registerCount) :: calls) os)
      with (createProcesses calls
              (snd (SimpleOS.createProcess random memorySize registerCount os))).
    rewrite IH by done. clear IH.
    destruct (Process_new_valid random memorySize registerCount Hcall)
      as (p & Hnew & Hpid).
    unfold SimpleOS.createProcess, mbind, M_bind, SimpleOS.allocate.
    rewrite Hnew. simpl. rewrite fmap_app, <- app_assoc. simpl.
    by rewrite Hpid.
Qed.

End Pids.

(** C6, as the claim states it, fails when two draws coincide: two calls of
    [createProcess] that both draw 42 create two processes, both in the
    queue and both with pid 42, and the table keeps only the second one
    under 42. *)
Lemma createProcess_pid_collision :
  exists os1 os2,
    SimpleOS.createProcess 42 16 4 SimpleOS.new = (Normal 0%nat, os1) /\
    SimpleOS.createProcess 42 16 4 os1 = (Normal 1%nat, os2) /\
    (Process.pid <$> SimpleOS.heap os2) = [42; 42] /\
    Scheduler.processQueue (SimpleOS.scheduler os2) = [0%nat; 1%nat] /\
    SimpleOS.processes os2 = {[ 42 := 1%nat ]}.
Proof. do 2 eexists. repeat split. Qed.

(** C6, amended.  After a sequence of [createProcess] calls on a new
    coordinator the pids of the created processes are, in order, the numbers
    drawn in the calls, so they are pairwise distinct whenever the draws are.
    In every state of the coordinator the table maps each pid it holds to one
    process, which carries that pid; [createProcess] keeps it so and enters
    the created process under the pid drawn. *)
Theorem createProcess_pids :
  (forall calls : list call,
     Forall valid_sizes calls ->
     Process.pid <$> SimpleOS.heap (createProcesses calls SimpleOS.new)
     = draw <$> calls) /\
  (forall calls : list call,
     Forall valid_sizes calls ->
     NoDup (draw <$> calls) ->
     NoDup (Process.pid <$> SimpleOS.heap (createProcesses calls SimpleOS.new))) /\
  (forall os, reachable os -> table_by_pid os) /\
  (forall os random memorySize registerCount l os',
     reachable os ->
     SimpleOS.createProcess random memorySize registerCount os = (Normal l, os') ->
     table_by_pid os' /\
     SimpleOS.processes os' !! random = Some l /\
     exists p, SimpleOS.heap os' !! l = Some p /\ Process.pid p = random).
Proof.
  assert (forall os, reachable os -> table_by_pid os) as Htable
    by (intros os Hos; by destruct (reachable_wf os Hos) as (_ & _ & _ & ?)).
  split; [| split; [| split]].
  - intros calls Hvalid. by rewrite createProcesses_pids.
  - intros calls Hvalid Hdraws. by rewrite createProcesses_pids.
  - exact Htable.
  - intros os random memorySize registerCount l os' Hos Hcreate.
    split; [| split].
    + replace os' with (snd (SimpleOS.createProcess random memorySize registerCount os))
        by (by rewrite Hcreate).
      by apply Htable, reachable_createProcess.
    + apply createProcess_Normal in Hcreate as (p & _ & _ & _ & _ & _ & _ & ->).
      apply lookup_insert_eq.
    + apply createProcess_Normal in Hcreate as (p & _ & Hpid & -> & -> & _).
      exists p. by rewrite lookup_app_r, Nat.sub_diag.
Qed.

Lemma createProcess_pids_witness :
  let calls : list call := [(7, 16, 4); (42, 8, 2); (9999, 4, 4)] in
  Process.pid <$> SimpleOS.heap (createProcesses calls SimpleOS.new) = [7; 42; 9999] /\
  NoDup (Process.pid <$> SimpleOS.heap (createProcesses calls SimpleOS.new)) /\
  table_by_pid (createProcesses calls SimpleOS.new).
Proof.
  destruct createProcess_pids as (Hpids & Hdistinct & Htable & _).
  assert (Forall valid_sizes [(7, 16, 4); (42, 8, 2); (9999, 4, 4)]) as Hvalid
    by (repeat constructor; simpl; lia).
  split; [exact (Hpids _ Hvalid) |]. split.
  - apply Hdistinct; [exact Hvalid |]. by_computation.
  - apply Htable. repeat apply reachable_createProcess. apply reachable_new.
Defined.

(** ** Loading a program *)

Section Program_text.

(** Writing a list of numbers to consecutive addresses from [start] on never
    throws; afterwards number [i] is at address [start + i], and the
    addresses outside that range hold what they held. *)
Lemma forEach_from_write (values : list number) (start : Z) (m : Storage.t) :
  exists m',
    forEach_from (fun instruction index => Storage.write index instruction) start values m
      = (Normal tt, m') /\
    (forall (i : nat) v, values !! i = Some v ->
       Storage.memory m' !! (start + Z.of_nat i) = Some v) /\
    (forall address, address < start \/ start + Z.of_nat (length values) <= address ->
       Storage.memory m' !! address = Storage.memory m !! address).
Proof.
  revert start m. induction values as [| v values IH]; intros start m.
  - exists m. by repeat split.
  - destruct (Storage_read_write start v m) as (m1 & Hw & _ & _).
    destruct (IH (start + 1) m1) as (m' & Hrun & Hin & Hout).
    exists m'. split; [| split].
    + simpl. unfold mbind, M_bind. by rewrite Hw.
    + intros [| i] x Hx; simpl in Hx.
      * injection Hx as ->. rewrite Hout by lia.
        injection Hw as <-. simpl. rewrite Z.add_0_r. apply lookup_insert_eq.
      * replace (start + Z.of_nat (S i)) with (start + 1 + Z.of_nat i) by lia. eauto.
    + intros address Ha. simpl length in Ha. rewrite Hout by lia.
      injection Hw as <-. simpl. apply lookup_insert_ne. lia.
Qed.

(** [loadProgram] never throws and touches the memory only: of the tokens
    between the commas of the program, token [i] is parsed with radix 10 and
    the result is stored at address [i]. *)
Lemma loadProgram_tokens (program : string) (p : Process.t) :
  exists p',
    Process.loadProgram program p = (Normal tt, p') /\
    Process.state p' = Process.state p /\
    Process.registers p' = Process.registers p /\
    forall (i : nat) (token : string),
      Str.split "," program !! i = Some token ->
      fst (Storage.read (Z.of_nat i) (Process.memory p'))
      = Normal (Number (Str.parseInt token (Fin 10))).
Proof.
  unfold Process.loadProgram, Process.on_memory, zoom, forEach.
  destruct (forEach_from_write
              ((fun num => Str.parseInt num (Fin 10)) <$> Str.split "," program)
              0 (Process.memory p)) as (m' & -> & Hin & _).
  eexists. split; [reflexivity |]. repeat split.
  intros i token Hi. unfold Storage.read, gets. simpl.
  rewrite <- (Z.add_0_l (Z.of_nat i)), (Hin i (Str.parseInt token (Fin 10))); [done |].
  by rewrite list_lookup_fmap, Hi.
Qed.

(** Decimal notation, as [pretty] prints an integer. *)
Lemma digit_value_pretty (d : N) :
  (d < 10)%N -> Str.digit_value (pretty_N_char d) = Some (Z.of_N d).
Proof.
  intros Hd.
  assert (d = 0 \/ d = 1 \/ d = 2 \/ d = 3 \/ d = 4 \/ d = 5 \/ d = 6 \/ d = 7
          \/ d = 8 \/ d = 9)%N as H by lia.
  repeat (destruct H as [-> | H]; [reflexivity |]). by subst.
Qed.

Lemma digits_pretty_go (x : N) (s : string) :
  Str.digits 10 None (pretty_N_go x s)
  = Str.digits 10 (if decide (x = 0%N) then None else Some (Z.of_N x)) s.
Proof.
  revert s. induction (N.lt_wf_0 x) as [x _ IH]. intros s.
  destruct (decide (x = 0%N)) as [-> | Hx]; [done |].
  rewrite pretty_N_go_step by lia.
  rewrite IH by (apply N.div_lt; lia).
  cbn [Str.digits]. rewrite digit_value_pretty by (apply N.mod_lt; lia).
  assert ((Z.of_N (x `mod` 10) <? 10) = true) as ->.
  { apply Z.ltb_lt. pose proof (N.mod_lt x 10). lia. }
  f_equal. f_equal.
  pose proof (N.Div0.div_mod x 10) as E.
  destruct (decide _) as [E0 | _]; unfold default; cbn [from_option id].
  - rewrite E0 in E. lia.
  - lia.
Qed.

Lemma pretty_go_head (x : N) (s : string) :
  (0 < x)%N ->
  exists d rest, (d < 10)%N /\ pretty_N_go x s = String (pretty_N_char d) rest.
Proof.
  revert s. induction (N.lt_wf_0 x) as [x _ IH]. intros s Hx.
  rewrite pretty_N_go_step by done.
  destruct (decide (x `div` 10 = 0)%N) as [E | Hdiv].
  - rewrite E, pretty_N_go_0. exists (x `mod` 10)%N, s. split; [| done].
    apply N.mod_lt. lia.
  - apply IH.
    + apply N.div_lt; lia.
    + by apply N.neq_0_lt_0.
Qed.

Lemma digit_char_plain (d : N) :
  (d < 10)%N ->
  Str.is_white_space (pretty_N_char d) = false /\
  forall rest, Str.strip_sign (String (pretty_N_char d) rest)
               = (false, String (pretty_N_char d) rest).
Proof.
  intros Hd.
  assert (d = 0 \/ d = 1 \/ d = 2 \/ d = 3 \/ d = 4 \/ d = 5 \/ d = 6 \/ d = 7
          \/ d = 8 \/ d = 9)%N as H by lia.
  repeat (destruct H as [-> | H]; [by split |]). by subst.
Qed.

Lemma parseInt_pretty_positive (x : positive) :
  Str.parseInt (pretty (N.pos x)) (Fin 10) = Num.of_integer (Z.pos x) /\
  Str.parseInt ("-" +:+ pretty (N.pos x)) (Fin 10)
  = Num.neg (Num.of_integer (Z.pos x)).
Proof.
  unfold pretty, pretty_N. destruct (decide _) as [| _]; [done |].
  destruct (pretty_go_head (N.pos x) EmptyString) as (d & rest & Hd & E); [lia |].
  destruct (digit_char_plain d Hd) as [Hws Hsign].
  pose proof (digits_pretty_go (N.pos x) EmptyString) as Hdigits.
  rewrite E in *. split.
  - unfold Str.parseInt. cbn [Str.trim_start]. rewrite Hws, Hsign.
    vm_compute Num.to_int32. cbn -[Str.digits Num.of_integer]. by rewrite Hdigits.
  - unfold Str.parseInt.
    change (Str.trim_start ("-" +:+ String (pretty_N_char d) rest))
      with (String "-" (String (pretty_N_char d) rest)).
    cbn [Str.strip_sign]. vm_compute Num.to_int32.
    cbn -[Str.digits Num.of_integer Num.neg]. by rewrite Hdigits.
Qed.

(** The text of an integer in decimal notation is parsed to the double
    nearest to that integer. *)
Lemma parseInt_decimal (z : Z) :
  Str.parseInt (pretty z) (Fin 10) = Num.of_integer z.
Proof.
  destruct z as [| x | x]; [done | apply parseInt_pretty_positive |].
  change (Z.neg x) with (- Z.pos x). rewrite of_integer_opp by done.
  apply parseInt_pretty_positive.
Qed.

(** [split] takes a text apart at its separators: the text made of tokens
    without separator, joined by the separator, splits into those tokens. *)
Lemma split_free (separator : ascii) (token : string) :
  Str.free_of separator token = true -> Str.split separator token = [token].
Proof.
  induction token as [| c token IH]; [done |]. simpl.
  destruct (Ascii.eqb c separator); [done |]. simpl. intros H. by rewrite IH.
Qed.

Lemma split_app (separator : ascii) (token rest : string) :
  Str.free_of separator token = true ->
  Str.split separator (token +:+ String separator rest)
  = token :: Str.split separator rest.
Proof.
  induction token as [| c token IH]; simpl.
  - by rewrite Ascii.eqb_refl.
  - destruct (Ascii.eqb c separator); [done |]. simpl. intros H. by rewrite IH.
Qed.

Lemma split_join (separator : ascii) (tokens : list string) :
  tokens ≠ [] ->
  Forall (fun token => Str.free_of separator token = true) tokens ->
  Str.split separator (Str.join separator tokens) = tokens.
Proof.
  induction tokens as [| token tokens IH]; [done |]. intros _ Hfree.
  apply Forall_cons in Hfree as [Htoken Hrest].
  destruct tokens as [| token' tokens]; [by apply split_free |].
  change (Str.join separator (token :: token' :: tokens))
    with (token +:+ String separator (Str.join separator (token' :: tokens))).
  rewrite split_app by done. f_equal. by apply IH.
Qed.

Lemma free_of_pretty_go (x : N) (s : string) :
  Str.free_of "," s = true -> Str.free_of "," (pretty_N_go x s) = true.
Proof.
  revert s. induction (N.lt_wf_0 x) as [x _ IH]. intros s Hs.
  destruct (decide (x = 0%N)) as [-> | Hx]; [done |].
  rewrite pretty_N_go_step by lia. apply IH; [apply N.div_lt; lia |].
  simpl. rewrite Hs. unfold pretty_N_char. by repeat case_match.
Qed.

Lemma free_of_pretty (z : Z) : Str.free_of "," (pretty z) = true.
Proof.
  assert (forall x : positive, Str.free_of "," (pretty (N.pos x)) = true) as Hpos.
  { intros x. unfold pretty, pretty_N. destruct (decide _); [done |].
    by apply free_of_pretty_go. }
  destruct z as [| x | x]; [done | apply Hpos |].
  change (pretty (Z.neg x)) with (String "-" (pretty (N.pos x))).
  simpl. apply Hpos.
Qed.

(** A program of integers written in decimal notation and separated by
    commas is stored word by word: the double nearest to word [i] at address
    [i]. *)
Lemma loadProgram_decimal (words : list Z) (p : Process.t) :
  words ≠ [] ->
  exists p',
    Process.loadProgram (Str.join "," (pretty <$> words)) p = (Normal tt, p') /\
    forall (i : nat) (w : Z),
      words !! i = Some w ->
      fst (Storage.read (Z.of_nat i) (Process.memory p'))
      = Normal (Number (Num.of_integer w)).
Proof.
  intros Hne.
  destruct (loadProgram_tokens (Str.join "," (pretty <$> words)) p)
    as (p' & Hload & _ & _ & Htokens).
  exists p'. split; [done |]. intros i w Hw.
  rewrite (Htokens i (pretty w)); [by rewrite parseInt_decimal |].
  rewrite split_join.
  - by rewrite list_lookup_fmap, Hw.
  - by destruct words.
  - apply Forall_fmap, Forall_forall. intros z _. apply free_of_pretty.
Qed.

End Program_text.

(** C5.  The claim fails for tokens in 0x-hex notation: [loadProgram] parses
    each token with radix 10, which reads "0x1120" as 0 (the digits before
    the x), where radix 16 reads 0x1120.  Of the program 0x1120,0x2341,17,
    addresses 0 and 1 receive 0 and address 2 receives 17. *)
Theorem loadProgram_hex_tokens :
  exists p p',
    Process.new 42 16 4 = Normal p /\
    Process.loadProgram "0x1120,0x2341,17" p = (Normal tt, p') /\
    fst (Storage.read 0 (Process.memory p')) = Normal (Number (Fin 0)) /\
    fst (Storage.read 1 (Process.memory p')) = Normal (Number (Fin 0)) /\
    fst (Storage.read 2 (Process.memory p')) = Normal (Number (Fin 17)) /\
    Str.parseInt "0x1120" (Fin 10) = Fin 0 /\
    Str.parseInt "0x1120" (Fin 16) = Fin 0x1120.
Proof. do 2 eexists. repeat split. Qed.

(** ** Decoding of any word *)

Section More_fields.

(** The four-bit field at position [k] of any 32-bit operand. *)
Lemma field_of_int32 (x k : Z) :
  0 <= k <= 12 ->
  Z.shiftr (Num.to_int32 (Fin (Z.land x (15 * 2 ^ k)))) k = (x / 2 ^ k) mod 16.
Proof.
  intros Hk. rewrite land_field by lia.
  pose proof (Z.mod_pos_bound (x / 2 ^ k) 16 ltac:(lia)) as Hf.
  assert (2 ^ k <= 2 ^ 12) by (apply Z.pow_le_mono_r; lia).
  assert (0 < 2 ^ k) by (apply Z.pow_pos_nonneg; lia).
  rewrite to_int32_small by nia.
  rewrite Z.shiftr_div_pow2, Z.div_mul by lia. done.
Qed.

Lemma fields_range (instruction : value) :
  0 <= CPU.opcode instruction < 16 /\
  0 <= CPU.operand1 instruction < 16 /\
  0 <= CPU.operand2 instruction < 16 /\
  0 <= CPU.destination instruction < 16.
Proof.
  set (x := Num.to_int32 (Num.of_value instruction)).
  assert (CPU.opcode instruction = (x / 2 ^ 12) mod 16) as ->
    by (apply (field_of_int32 x 12); lia).
  assert (CPU.operand1 instruction = (x / 2 ^ 8) mod 16) as ->
    by (apply (field_of_int32 x 8); lia).
  assert (CPU.operand2 instruction = (x / 2 ^ 4) mod 16) as ->
    by (apply (field_of_int32 x 4); lia).
  assert (CPU.destination instruction = x mod 16) as ->.
  { unfold CPU.destination, Num.bit_and. fold x.
    change (Num.to_int32 (Fin 15)) with (Z.ones 4). by rewrite Z.land_ones by lia. }
  repeat split; apply Z.mod_pos_bound; lia.
Qed.

End More_fields.

(** X1.  Decoding.  Of an integer word [w] the cycle takes the opcode from
    bits 12-15, the first operand from bits 8-11, the second from bits 4-7
    and the destination from bits 0-3, whatever the bits above bit 15 are.
    Each field of any fetched value lies between 0 and 15, and all four are
    0 for [undefined], NaN, the infinities and -0. *)
Theorem decode_fields :
  (forall w : Z,
     CPU.opcode (Number (Fin w)) = (w / 2 ^ 12) mod 16 /\
     CPU.operand1 (Number (Fin w)) = (w / 2 ^ 8) mod 16 /\
     CPU.operand2 (Number (Fin w)) = (w / 2 ^ 4) mod 16 /\
     CPU.destination (Number (Fin w)) = w mod 16) /\
  (forall instruction : value,
     0 <= CPU.opcode instruction < 16 /\
     0 <= CPU.operand1 instruction < 16 /\
     0 <= CPU.operand2 instruction < 16 /\
     0 <= CPU.destination instruction < 16) /\
  (forall instruction : value,
     instruction = Undefined \/ instruction = Number NaN \/
     instruction = Number PosInf \/ instruction = Number NegInf \/
     instruction = Number NegZero ->
     CPU.opcode instruction = 0 /\ CPU.operand1 instruction = 0 /\
     CPU.operand2 instruction = 0 /\ CPU.destination instruction = 0).
Proof.
  split; [| split].
  - intros w. auto using opcode_bits, operand1_bits, operand2_bits, destination_bits.
  - apply fields_range.
  - intros instruction [-> | [-> | [-> | [-> | ->]]]]; done.
Qed.

Lemma decode_fields_witness :
  CPU.opcode (Number (Fin 0x2A7C)) = 2 /\
  CPU.operand1 (Number (Fin 0x2A7C)) = 10 /\
  CPU.operand2 (Number (Fin 0x2A7C)) = 7 /\
  CPU.destination (Number (Fin 0x2A7C)) = 12 /\
  CPU.opcode Undefined = 0.
Proof.
  destruct decode_fields as (Hbits & _ & Hzero).
  destruct (Hbits 0x2A7C) as (H1 & H2 & H3 & H4).
  destruct (Hzero Undefined) as (H0 & _); [by left |].
  split; [exact H1 |]. split; [exact H2 |]. split; [exact H3 |].
  split; [exact H4 | exact H0].
Defined.

Section Register_access.

Lemma on_registers_read (index : Z) (cpu : CPU.t) (memory : Storage.t) :
  CPU.on_registers (RegisterFile.read index) (cpu, memory) =
  match element (CPU.registers cpu) index with
  | Some register => (Normal (Register.value register), (cpu, memory))
  | None => (Throw TypeError, (cpu, memory))
  end.
Proof.
  destruct cpu as [regs cu].
  unfold CPU.on_registers, zoom_fst, zoom, RegisterFile.read. simpl.
  by destruct (element regs index).
Qed.

Lemma on_registers_write (index : Z) (data : number) (cpu : CPU.t) (memory : Storage.t) :
  CPU.on_registers (RegisterFile.write index data) (cpu, memory) =
  match element (CPU.registers cpu) index with
  | Some _ =>
      (Normal tt,
       ({| CPU.registers := <[Z.to_nat index := {| Register.value := data |}]> (CPU.registers cpu);
           CPU.controlUnit := CPU.controlUnit cpu |}, memory))
  | None => (Throw TypeError, (cpu, memory))
  end.
Proof.
  destruct cpu as [regs cu].
  unfold CPU.on_registers, zoom_fst, zoom, RegisterFile.write. simpl.
  by destruct (element regs index).
Qed.

Lemma element_Some {A} (array : list A) (index : Z) :
  0 <= index < Z.of_nat (length array) -> is_Some (element array index).
Proof.
  intros H. unfold element. destruct (Z.leb_spec 0 index); [| lia].
  apply lookup_lt_is_Some_2. lia.
Qed.

Lemma element_None {A} (array : list A) (index : Z) :
  index < 0 \/ Z.of_nat (length array) <= index -> element array index = None.
Proof.
  intros H. unfold element. destruct (Z.leb_spec 0 index); [| done].
  apply lookup_ge_None_2. lia.
Qed.

End Register_access.

(** ** A cycle of the CPU, case by case *)

Section Cycle.

Lemma CPU_execute_cases (cpu : CPU.t) (memory : Storage.t) :
  CPU.execute (cpu, memory) =
  if CPU.opcode (fetched cpu memory) =? 1 then arithmetic Num.add cpu memory
  else if CPU.opcode (fetched cpu memory) =? 2 then arithmetic Num.sub cpu memory
  else (Throw (UnknownOpcode (CPU.opcode (fetched cpu memory))),
        (advanced (CPU.registers cpu) cpu, memory)).
Proof.
  unfold CPU.execute, mbind, M_bind. rewrite CPU_fetch.
  change (match Storage.memory memory
                !! ControlUnit.instructionPointer (CPU.controlUnit cpu) with
          | Some data => Number data
          | None => Undefined
          end) with (fetched cpu memory).
  fold (advanced (CPU.registers cpu) cpu). unfold arithmetic.
  set (instruction := fetched cpu memory).
  set (cpu1 := advanced (CPU.registers cpu) cpu).
  change (CPU.registers cpu) with (CPU.registers cpu1).
  assert (forall regs, advanced regs cpu
            = {| CPU.registers := regs; CPU.controlUnit := CPU.controlUnit cpu1 |})
    as Hadv by done.
  destruct (CPU.opcode instruction =? 1); [| destruct (CPU.opcode instruction =? 2)].
  3: done.
  all: rewrite on_registers_read.
  all: destruct (element (CPU.registers cpu1) (CPU.operand1 instruction)) as [a |] eqn:Ha;
    [| done].
  all: rewrite on_registers_read.
  all: destruct (element (CPU.registers cpu1) (CPU.operand2 instruction)) as [b |] eqn:Hb;
    [| done].
  all: unfold lift; cbn [ALU.execute String.eqb Ascii.eqb Bool.eqb].
  all: rewrite on_registers_write.
  all: destruct (element (CPU.registers cpu1) (CPU.destination instruction)) as [d |] eqn:Hd;
    [| done].
  all: by rewrite Hadv.
Qed.

(** A cycle only reads the memory. *)
Lemma CPU_execute_memory (cpu : CPU.t) (memory : Storage.t) :
  snd (snd (CPU.execute (cpu, memory))) = memory.
Proof.
  rewrite CPU_execute_cases. unfold arithmetic.
  destruct (_ =? 1); [| destruct (_ =? 2)]; [| | done].
  all: destruct (element _ (CPU.operand1 _)) as [a |]; [| done].
  all: destruct (element _ (CPU.operand2 _)) as [b |]; [| done].
  all: by destruct (element _ (CPU.destination _)) as [d |].
Qed.

End Cycle.






(** ** Memory and register file *)

(** X5.  A new memory.  [new Storage(size)] with [0 <= size < 2^32] returns
    a memory that reads 0 at every address from 0 to [size - 1] and
    [undefined] at every other address; with a size outside that range the
    constructor throws a [RangeError]. *)
Theorem Storage_new_contents (size : Z) :
  (0 <= size < 2 ^ 32 ->
   exists m,
     Storage.new size = Normal m /\
     forall address,
       Storage.read address m =
       (Normal (if (0 <=? address) && (address <? size)
                then Number (Fin 0) else Undefined), m)) /\
  (size < 0 \/ 2 ^ 32 <= size -> Storage.new size = Throw RangeError).
Proof.
  split.
  - intros [Hlow Hhigh].
    destruct (Storage.new size) as [m | e] eqn:Hnew.
    + exists m. split; [done |]. intros address.
      unfold Storage.read, gets. rewrite (Storage_new_lookup size) by done.
      by destruct (_ && _).
    + unfold Storage.new in Hnew.
      apply Z.leb_le in Hlow. apply Z.ltb_lt in Hhigh. by rewrite Hlow, Hhigh in Hnew.
  - intros Hbad. unfold Storage.new.
    destruct (Z.leb_spec 0 size), (Z.ltb_spec size (2 ^ 32)); simpl; try done; lia.
Qed.

Lemma Storage_new_contents_witness :
  (exists m,
     Storage.new 3 = Normal m /\
     Storage.read 2 m = (Normal (Number (Fin 0)), m) /\
     Storage.read 3 m = (Normal Undefined, m)) /\
  Storage.new (-1) = Throw RangeError.
Proof.
  destruct (Storage_new_contents 3) as [Hvalid _].
  destruct (Storage_new_contents (-1)) as [_ Hinvalid].
  split; [| apply Hinvalid; lia].
  destruct Hvalid as (m & Hnew & Hread); [lia |].
  exists m. split; [exact Hnew |]. split; [apply (Hread 2) | apply (Hread 3)].
Defined.

(** X6.  Writes to a memory.  A read after a write to the same address
    returns the written data; a write leaves what every other address reads
    unchanged; of two writes to one address the later one wins; two writes to
    different addresses give the same memory in either order. *)
Theorem Storage_writes (m : Storage.t) (a b : Z) (v w : number) :
  let after (writes : M Storage.t unit) := snd (writes m) in
  fst ((Storage.write a v;; Storage.read a) m) = Normal (Number v) /\
  (a ≠ b ->
   fst ((Storage.write a v;; Storage.read b) m) = fst (Storage.read b m)) /\
  after (Storage.write a v;; Storage.write a w) = after (Storage.write a w) /\
  (a ≠ b ->
   after (Storage.write a v;; Storage.write b w)
   = after (Storage.write b w;; Storage.write a v)).
Proof.
  destruct m as [mem len]. simpl. repeat split.
  - unfold Storage.read, gets. simpl. by rewrite lookup_insert_eq.
  - intros Hne. unfold Storage.read, gets. simpl. by rewrite lookup_insert_ne.
  - unfold mbind, M_bind, Storage.write, modify. simpl. f_equal.
    + apply insert_insert_eq.
    + repeat match goal with
             | |- context [?x <=? ?y] => destruct (Z.leb_spec x y)
             | |- context [?x <? ?y] => destruct (Z.ltb_spec x y)
             end; simpl in *; lia.
  - intros Hne. unfold mbind, M_bind, Storage.write, modify. simpl. f_equal.
    + by apply insert_insert_ne.
    + repeat match goal with
             | |- context [?x <=? ?y] => destruct (Z.leb_spec x y)
             | |- context [?x <? ?y] => destruct (Z.ltb_spec x y)
             end; simpl in *; lia.
Qed.

Lemma Storage_writes_witness :
  fst ((Storage.write 1 (Fin 7);; Storage.read 2) example_memory)
  = fst (Storage.read 2 example_memory) /\
  snd ((Storage.write 1 (Fin 7);; Storage.write 300 (Fin 8)) example_memory)
  = snd ((Storage.write 300 (Fin 8);; Storage.write 1 (Fin 7)) example_memory).
Proof.
  destruct (Storage_writes example_memory 1 2 (Fin 7) (Fin 8)) as (_ & Hother & _).
  destruct (Storage_writes example_memory 1 300 (Fin 7) (Fin 8)) as (_ & _ & _ & Hswap).
  split; [apply Hother | apply Hswap]; lia.
Defined.

(** X7.  Access to the register file.  With [0 <= index < size], [write]
    returns, a following [read] of [index] returns the written data, the
    number of registers is unchanged and every other index reads as before.
    With an index below 0 or at or past the size, [read] and [write] both
    throw a [TypeError] and leave the register file unchanged. *)
Theorem RegisterFile_access (regs : RegisterFile.t) (index : Z) (data : number) :
  (0 <= index < Z.of_nat (length regs) ->
   exists regs',
     RegisterFile.write index data regs = (Normal tt, regs') /\
     RegisterFile.read index regs' = (Normal data, regs') /\
     length regs' = length regs /\
     forall other, other ≠ index ->
                   RegisterFile.read other regs' =
                   (fst (RegisterFile.read other regs), regs')) /\
  (index < 0 \/ Z.of_nat (length regs) <= index ->
   RegisterFile.read index regs = (Throw TypeError, regs) /\
   RegisterFile.write index data regs = (Throw TypeError, regs)).
Proof.
  split.
  - intros Hrange. destruct (element_Some regs index Hrange) as [r Hr].
    unfold RegisterFile.write, RegisterFile.read. rewrite Hr. simpl.
    eexists. split; [reflexivity |].
    assert (forall i, element (<[Z.to_nat index := {| Register.value := data |}]> regs) i
              = if decide (i = index) then Some {| Register.value := data |}
                else element regs i) as Helement.
    { intros i. unfold element. destruct (decide (i = index)) as [-> | Hne].
      - destruct (Z.leb_spec 0 index); [| lia]. apply list_lookup_insert_eq. lia.
      - destruct (Z.leb_spec 0 i); [| done]. apply list_lookup_insert_ne. lia. }
    split; [| split].
    + rewrite Helement. by destruct (decide _).
    + apply length_insert.
    + intros other Hne. rewrite Helement. destruct (decide _); [done |].
      by destruct (element regs other).
  - intros Hout. unfold RegisterFile.read, RegisterFile.write.
    by rewrite (element_None regs index Hout).
Qed.

Lemma RegisterFile_access_witness :
  let regs := CPU.registers example_cpu in
  (exists regs',
     RegisterFile.write 3 (Fin 9) regs = (Normal tt, regs') /\
     RegisterFile.read 3 regs' = (Normal (Fin 9), regs')) /\
  RegisterFile.read 4 regs = (Throw TypeError, regs) /\
  RegisterFile.write (-1) (Fin 9) regs = (Throw TypeError, regs).
Proof.
  destruct (RegisterFile_access (CPU.registers example_cpu) 3 (Fin 9)) as [Hin _].
  destruct (RegisterFile_access (CPU.registers example_cpu) 4 (Fin 9)) as [_ Hhigh].
  destruct (RegisterFile_access (CPU.registers example_cpu) (-1) (Fin 9)) as [_ Hlow].
  split; [| split].
  - destruct Hin as (regs' & Hw & Hr & _); [by vm_compute |]. exists regs'. by split.
  - apply Hhigh. right. by vm_compute.
  - apply Hlow. left. lia.
Defined.

(** X8.  A new register file.  [new RegisterFile(size)] with [size < 2^32]
    has [size] registers (none for a negative size), each of which reads 0,
    and reading any index below 0 or at or past [size] throws a [TypeError];
    with [size >= 2^32] the constructor throws a [RangeError]. *)
Theorem RegisterFile_new_registers (size : Z) :
  (size < 2 ^ 32 ->
   exists regs,
     RegisterFile.new size = Normal regs /\
     length regs = Z.to_nat size /\
     forall index,
       RegisterFile.read index regs =
       (if (0 <=? index) && (index <? size) then Normal (Fin 0) else Throw TypeError,
        regs)) /\
  (2 ^ 32 <= size -> RegisterFile.new size = Throw RangeError).
Proof.
  unfold RegisterFile.new. split.
  - intros Hsize. apply Z.ltb_lt in Hsize. rewrite Hsize.
    eexists. split; [reflexivity |]. split; [apply length_replicate |].
    intros index. unfold RegisterFile.read, element.
    destruct (Z.leb_spec 0 index), (Z.ltb_spec index size); simpl; try done.
    + rewrite lookup_replicate_2 by lia. done.
    + assert (replicate (Z.to_nat size) Register.new !! Z.to_nat index = None) as ->
        by (apply lookup_replicate_None; lia).
      done.
  - intros Hsize. apply Z.ltb_ge in Hsize. by rewrite Hsize.
Qed.

Lemma RegisterFile_new_registers_witness :
  (exists regs,
     RegisterFile.new 4 = Normal regs /\
     RegisterFile.read 3 regs = (Normal (Fin 0), regs) /\
     RegisterFile.read 4 regs = (Throw TypeError, regs)) /\
  RegisterFile.new (2 ^ 32) = Throw RangeError.
Proof.
  destruct (RegisterFile_new_registers 4) as [Hvalid _].
  destruct (RegisterFile_new_registers (2 ^ 32)) as [_ Hinvalid].
  split; [| apply Hinvalid; lia].
  destruct Hvalid as (regs & Hnew & _ & Hread); [lia |].
  exists regs. split; [exact Hnew |]. split; [apply (Hread 3) | apply (Hread 4)].
Defined.

(** ** Fetching in a row *)

Lemma Storage_read_word (address : Z) (memory : Storage.t) :
  Storage.read address memory = (Normal (word_at memory address), memory).
Proof. reflexivity. Qed.


(** ** Scheduling in a row *)

Section Rotation.

Lemma schedule_many_from (count : nat) (queue : list loc) (cursor : nat) :
  (cursor < length queue)%nat ->
  schedule_many count
    {| Scheduler.processQueue := queue; Scheduler.currentProcessIndex := cursor |} =
  (Normal ((fun i => queue !! ((cursor + i) mod length queue)%nat) <$> seq 0 count),
   {| Scheduler.processQueue := queue;
      Scheduler.currentProcessIndex := ((cursor + count) mod length queue)%nat |}).
Proof.
  revert cursor. induction count as [| count IH]; intros cursor Hcursor.
  - simpl. unfold mret, M_ret. by rewrite Nat.add_0_r, Nat.mod_small.
  - destruct (lookup_lt_is_Some_2 queue cursor Hcursor) as [p Hp].
    cbn [schedule_many]. unfold mbind, M_bind.
    rewrite (schedule_at_cursor _ p) by done.
    cbn [Scheduler.processQueue Scheduler.currentProcessIndex].
    rewrite IH by (apply Nat.mod_upper_bound; lia).
    unfold mret, M_ret. cbn [seq fmap list_fmap].
    rewrite <- fmap_S_seq, <- list_fmap_compose.
    f_equal; [f_equal; f_equal |].
    + by rewrite Nat.add_0_r, Nat.mod_small.
    + apply list_fmap_ext. intros _ i _. simpl. f_equal.
      rewrite Nat.Div0.add_mod_idemp_l. f_equal. lia.
    + f_equal. rewrite Nat.Div0.add_mod_idemp_l. f_equal. lia.
Qed.

End Rotation.

(** X10.  Round robin from any position.  On a queue of [n] entries with the
    cursor at [c < n], call number [i] of [schedule] (counted from 0) returns
    the entry at position [(c + i) mod n], and after [count] calls the cursor
    is at [(c + count) mod n].  After [n] calls the scheduler is as it was
    before them, and every entry of the queue is returned by one of those
    [n] calls. *)
Theorem schedule_many_round_robin (count : nat) (s : Scheduler.t) :
  let queue := Scheduler.processQueue s in
  let cursor := Scheduler.currentProcessIndex s in
  (cursor < length queue)%nat ->
  schedule_many count s =
    (Normal ((fun i => queue !! ((cursor + i) mod length queue)%nat) <$> seq 0 count),
     {| Scheduler.processQueue := queue;
        Scheduler.currentProcessIndex := ((cursor + count) mod length queue)%nat |}) /\
  snd (schedule_many (length queue) s) = s /\
  (forall p, p ∈ queue ->
     exists i, (i < length queue)%nat /\
               queue !! ((cursor + i) mod length queue)%nat = Some p).
Proof.
  destruct s as [queue cursor]. simpl. intros Hcursor.
  split; [by apply schedule_many_from |]. split.
  - rewrite schedule_many_from by done. simpl. f_equal.
    rewrite <- Nat.Div0.add_mod_idemp_r, Nat.Div0.mod_same, Nat.add_0_r.
    by apply Nat.mod_small.
  - intros p Hp.
    apply list_elem_of_lookup in Hp as [j Hj].
    pose proof (lookup_lt_Some _ _ _ Hj) as Hlt.
    exists ((j + length queue - cursor) mod length queue)%nat. split.
    + apply Nat.mod_upper_bound. lia.
    + rewrite Nat.Div0.add_mod_idemp_r.
      replace (cursor + (j + length queue - cursor))%nat with (j + 1 * length queue)%nat by lia.
      by rewrite Nat.Div0.mod_add, Nat.mod_small.
Qed.

Lemma schedule_many_round_robin_witness :
  schedule_many 5
    {| Scheduler.processQueue := [7; 8; 9]%nat; Scheduler.currentProcessIndex := 1 |}
  = (Normal [Some 8; Some 9; Some 7; Some 8; Some 9]%nat,
     {| Scheduler.processQueue := [7; 8; 9]%nat; Scheduler.currentProcessIndex := 0 |}).
Proof.
  destruct (schedule_many_round_robin 5
              {| Scheduler.processQueue := [7; 8; 9]%nat;
                 Scheduler.currentProcessIndex := 1 |}) as [Hcalls _].
  - simpl. lia.
  - exact Hcalls.
Defined.

(** ** Preemption *)

Section Find.

(** [find] returns the first entry that satisfies the test. *)
Lemma find_first {A} (f : A -> bool) (l : list A) (i : nat) (x : A) :
  l !! i = Some x -> f x = true ->
  (forall j y, (j < i)%nat -> l !! j = Some y -> f y = false) ->
  List.find f l = Some x.
Proof.
  revert i. induction l as [| a l IH]; intros i Hi Hx Hbefore; [done |].
  destruct i as [| i]; simpl in *.
  - injection Hi as ->. by rewrite Hx.
  - rewrite (Hbefore 0%nat a) by (done || lia).
    apply (IH i); [done | done |].
    intros j y Hj Hy. apply (Hbefore (S j) y); [lia | done].
Qed.

Lemma find_none_running {A} (f : A -> bool) (l : list A) :
  Forall (fun x => f x = false) l -> List.find f l = None.
Proof. induction 1 as [| x l Hx _ IH]; [done |]. simpl. by rewrite Hx. Qed.

End Find.

(** X11.  Preemption.  When no process of the queue is running, [preempt]
    changes nothing.  Otherwise the first running process in the order of
    the queue becomes ready, and nothing else changes: the queue, the
    cursor, every other process, and the other fields of that process. *)
Theorem preempt_first_running (s : Scheduler.t) (heap : list Process.t) :
  (Forall (fun l => Scheduler.is_running heap l = false) (Scheduler.processQueue s) ->
   Scheduler.preempt (s, heap) = (Normal tt, (s, heap))) /\
  (forall (i : nat) (l : loc) (p : Process.t),
     Scheduler.processQueue s !! i = Some l ->
     heap !! l = Some p ->
     Process.state p = Process.running ->
     (forall j q, (j < i)%nat -> Scheduler.processQueue s !! j = Some q ->
                  Scheduler.is_running heap q = false) ->
     Scheduler.preempt (s, heap) =
     (Normal tt, (s, <[l := Process.set_state Process.ready p]> heap))).
Proof.
  split.
  - intros Hnone. unfold Scheduler.preempt. by rewrite find_none_running.
  - intros i l p Hi Hl Hrunning Hbefore. unfold Scheduler.preempt.
    rewrite (find_first _ _ i l); [| done | | done].
    + do 2 f_equal. apply list_eq. intros k.
      destruct (decide (k = l)) as [-> | Hne].
      * rewrite list_lookup_alter_eq, list_lookup_insert_eq, Hl
          by (by eapply lookup_lt_Some). done.
      * by rewrite list_lookup_alter_ne, list_lookup_insert_ne.
    + unfold Scheduler.is_running. rewrite Hl. by apply bool_decide_eq_true.
Qed.

Lemma preempt_first_running_witness :
  Process.state <$>
    snd (snd (Scheduler.preempt
                ({| Scheduler.processQueue := [0; 2; 1]%nat;
                    Scheduler.currentProcessIndex := 0 |}, preempt_example_heap)))
  = [Process.terminated; Process.running; Process.ready].
Proof.
  destruct (preempt_first_running
              {| Scheduler.processQueue := [0; 2; 1]%nat;
                 Scheduler.currentProcessIndex := 0 |} preempt_example_heap)
    as [_ Hfirst].
  erewrite (Hfirst 1%nat 2%nat); [reflexivity | reflexivity | reflexivity | reflexivity |].
  intros [| j] q Hj Hq; [| lia]. by injection Hq as <-.
Defined.

(** ** The timer and the host *)

Section Timer_steps.

Lemma Timer_start_run (tm : Timer.t) (host : Host.t) :
  Timer.start (tm, host) =
  (Normal tt,
   ({| Timer.interval := Timer.interval tm; Timer.timerId := Some (Host.next_id host) |},
    {| Host.intervals := {[Host.next_id host]} ∪ Host.intervals host;
       Host.next_id := S (Host.next_id host) |})).
Proof. reflexivity. Qed.

Lemma Timer_stop_run (tm : Timer.t) (host : Host.t) :
  Timer.stop (tm, host) =
  match Timer.timerId tm with
  | Some id =>
      (Normal tt,
       ({| Timer.interval := Timer.interval tm; Timer.timerId := None |},
        {| Host.intervals := Host.intervals host ∖ {[id]};
           Host.next_id := Host.next_id host |}))
  | None => (Normal tt, (tm, host))
  end.
Proof. destruct tm as [interval [id |]]; reflexivity. Qed.

Lemma fresh_removed (intervals : gset nat) (id : nat) :
  id ∉ intervals -> ({[id]} ∪ intervals) ∖ {[id]} = intervals.
Proof.
  intros Hfresh. apply set_eq. intros x.
  rewrite elem_of_difference, elem_of_union, !elem_of_singleton.
  split; [tauto |]. intros Hx. split; [by right |]. by intros ->.
Qed.

Lemma host_ok_fresh (host : Host.t) :
  host_ok host -> Host.next_id host ∉ Host.intervals host.
Proof. intros Hok Hin. specialize (Hok _ Hin). lia. Qed.

End Timer_steps.

(** X12.  Start and stop of the timer.  With a host whose interval ids were
    all handed out by [setInterval], [start] followed by [stop] leaves the
    host with the intervals it had before and the timer without an id; and
    [stop] on a timer that was not started changes nothing. *)
Theorem Timer_start_stop (tm : Timer.t) (host : Host.t) :
  host_ok host ->
  (Timer.start;; Timer.stop) (tm, host) =
    (Normal tt,
     ({| Timer.interval := Timer.interval tm; Timer.timerId := None |},
      {| Host.intervals := Host.intervals host;
         Host.next_id := S (Host.next_id host) |})) /\
  (Timer.timerId tm = None -> Timer.stop (tm, host) = (Normal tt, (tm, host))).
Proof.
  intros Hok. split.
  - unfold mbind, M_bind. rewrite Timer_start_run, Timer_stop_run. simpl.
    by rewrite fresh_removed by (by apply host_ok_fresh).
  - intros Hid. by rewrite Timer_stop_run, Hid.
Qed.

Lemma Timer_start_stop_witness :
  (Timer.start;; Timer.stop) (Timer.new 1000, Host.new) =
    (Normal tt, (Timer.new 1000, {| Host.intervals := ∅; Host.next_id := 1 |})).
Proof.
  apply (Timer_start_stop (Timer.new 1000) Host.new).
  intros id Hid. by apply not_elem_of_empty in Hid.
Defined.

(** X13.  A second [start] without a [stop] between them: the timer only
    remembers the id of the second interval, so after [start], [start],
    [stop] the first interval is still active in the host while the timer
    holds no id, and a further [stop] changes nothing. *)
Theorem Timer_second_start_leaks (tm : Timer.t) (host : Host.t) :
  host_ok host ->
  exists tm' host',
    (Timer.start;; Timer.start;; Timer.stop) (tm, host) = (Normal tt, (tm', host')) /\
    Timer.timerId tm' = None /\
    Host.intervals host' = {[Host.next_id host]} ∪ Host.intervals host /\
    Timer.stop (tm', host') = (Normal tt, (tm', host')).
Proof.
  intros Hok. unfold mbind, M_bind.
  rewrite !Timer_start_run, Timer_stop_run. simpl.
  do 2 eexists. split; [reflexivity |]. simpl. split; [done |]. split; [| done].
  apply fresh_removed. pose proof (host_ok_fresh host Hok) as Hfresh.
  rewrite elem_of_union, elem_of_singleton. intros [Hsame | Hin]; [lia |].
  specialize (Hok _ Hin). lia.
Qed.

Lemma Timer_second_start_leaks_witness :
  exists tm' host',
    (Timer.start;; Timer.start;; Timer.stop) (Timer.new 1000, Host.new)
      = (Normal tt, (tm', host')) /\
    Timer.timerId tm' = None /\
    Host.intervals host' = {[0%nat]} ∪ ∅.
Proof.
  destruct (Timer_second_start_leaks (Timer.new 1000) Host.new)
    as (tm' & host' & Hrun & Hid & Hleak & _).
  { intros id Hid. by apply not_elem_of_empty in Hid. }
  exists tm', host'. by repeat split.
Defined.

(** ** The effect of running a process *)

Section Dispatch.

(** The cycle that the coordinator runs for a process leaves the process as
    it is: the registers it computes in are those of a CPU of its own, and
    the memory is only read. *)
Lemma cpu_cycle_unchanged (p : Process.t) : snd (SimpleOS.cpu_cycle p) = p.
Proof.
  unfold SimpleOS.cpu_cycle. destruct (CPU.new _) as [cpu | e]; [| done].
  pose proof (CPU_execute_memory cpu (Process.memory p)) as Hmemory.
  destruct (CPU.execute (cpu, Process.memory p)) as [c [cpu' memory]].
  simpl in *. subst memory. by destruct p.
Qed.

Lemma on_process_set_heap {A} (l : loc) (m : M Process.t A)
      (os : SimpleOS.t) (heap : list Process.t) (q : Process.t) :
  heap !! l = Some q ->
  SimpleOS.on_process l m (SimpleOS.set_heap heap os) =
  (fst (m q), SimpleOS.set_heap (<[l := snd (m q)]> heap) os).
Proof.
  intros Hq. rewrite (on_process_valid l m _ q) by done. by destruct os.
Qed.

Lemma dispatch_effect (l : loc) (os : SimpleOS.t) (p : Process.t) :
  SimpleOS.heap os !! l = Some p ->
  SimpleOS.dispatch l os =
  (Normal tt,
   if decide (Process.state p = Process.ready)
   then SimpleOS.set_heap
          (<[l := Process.set_state Process.terminated p]> (SimpleOS.heap os)) os
   else os).
Proof.
  intros Hp.
  assert (Hl : (l < length (SimpleOS.heap os))%nat) by (by eapply lookup_lt_Some).
  unfold SimpleOS.dispatch, mbind, M_bind.
  rewrite (on_process_valid l _ os p Hp). simpl.
  rewrite list_insert_id by done.
  destruct (decide _) as [Hready | _]; [| by rewrite set_heap_same].
  rewrite (on_process_set_heap l _ os _ p Hp). simpl.
  set (p1 := Process.set_state Process.running p).
  assert (Hp1 : <[l := p1]> (SimpleOS.heap os) !! l = Some p1)
    by (by apply list_lookup_insert_eq).
  unfold try_catch.
  rewrite (on_process_set_heap l _ os _ p1 Hp1).
  pose proof (cpu_cycle_unchanged p1) as Hcycle.
  destruct (SimpleOS.cpu_cycle p1) as [c p2]. simpl in Hcycle. subst p2. simpl.
  rewrite list_insert_insert_eq.
  destruct c as [[] | e];
    rewrite (on_process_set_heap l _ os _ p1 Hp1); simpl;
    by rewrite list_insert_insert_eq.
Qed.

End Dispatch.

(** X14.  [executeProcess] on a ready process.  When [pid] is in the table
    and its process is ready, the call returns normally, whatever the
    program of the process is, and the only change is that the process is
    terminated: its memory, registers, instruction pointer and pid, the
    other processes, the scheduler and the table are as before. *)
Theorem executeProcess_ready (os : SimpleOS.t) (pid : Z) (l : loc) (p : Process.t) :
  SimpleOS.processes os !! pid = Some l ->
  SimpleOS.heap os !! l = Some p ->
  Process.state p = Process.ready ->
  SimpleOS.executeProcess pid os =
  (Normal tt,
   SimpleOS.set_heap
     (<[l := Process.set_state Process.terminated p]> (SimpleOS.heap os)) os).
Proof.
  intros Hpid Hl Hready.
  unfold SimpleOS.executeProcess, mbind, M_bind, gets. rewrite Hpid.
  rewrite (dispatch_effect l os p Hl). by destruct (decide _).
Qed.

Lemma executeProcess_ready_witness :
  exists p,
    SimpleOS.heap one_process !! 0%nat = Some p /\
    SimpleOS.executeProcess 42 one_process =
    (Normal tt,
     SimpleOS.set_heap [Process.set_state Process.terminated p] one_process).
Proof.
  destruct (SimpleOS.heap one_process !! 0%nat) as [p |] eqn:Hp;
    [| by vm_compute in Hp].
  exists p. split; [done |].
  rewrite (executeProcess_ready one_process 42 0%nat p); [| reflexivity | exact Hp |].
  - f_equal.
  - vm_compute in Hp. by injection Hp as <-.
Defined.

(** ** Processes at rest *)

Section Settled.

Lemma loadProgram_only_memory (program : string) (p : Process.t) :
  exists memory,
    Process.loadProgram program p = (Normal tt, Process.set_memory memory p).
Proof.
  destruct (loadProgram_tokens program p) as (p' & Hload & _).
  unfold Process.loadProgram, Process.on_memory, zoom in *.
  destruct (forEach _ _ (Process.memory p)) as [c memory].
  injection Hload as -> _. by exists memory.
Qed.

Lemma at_rest_set_memory (memory : Storage.t) (p : Process.t) :
  at_rest p -> at_rest (Process.set_memory memory p).
Proof. by intros (? & ? & ?). Qed.

Lemma at_rest_terminated (p : Process.t) :
  at_rest p -> at_rest (Process.set_state Process.terminated p).
Proof. intros (_ & ? & ?). repeat split; [by right | done | done]. Qed.

Lemma at_rest_new (pid memorySize registerCount : Z) (p : Process.t) :
  Process.new pid memorySize registerCount = Normal p -> at_rest p.
Proof.
  unfold Process.new, RegisterFile.new.
  destruct (Storage.new memorySize) as [memory | e]; [| done].
  destruct (registerCount <? 2 ^ 32); [| done].
  intros [= <-]. repeat split; simpl; [by left |].
  by apply Forall_replicate.
Qed.

Lemma at_rest_not_running (heap : list Process.t) (queue : list loc) :
  Forall at_rest heap ->
  Forall (fun l => Scheduler.is_running heap l = false) queue.
Proof.
  intros Hrest. apply Forall_forall. intros l _. unfold Scheduler.is_running.
  destruct (heap !! l) as [p |] eqn:Hp; [| done].
  apply (Forall_lookup_1 _ _ _ _ Hrest) in Hp as ([Hs | Hs] & _);
    apply bool_decide_eq_false; by rewrite Hs.
Qed.

Lemma preemptProcess_settled (os : SimpleOS.t) :
  Forall at_rest (SimpleOS.heap os) ->
  SimpleOS.preemptProcess os = (Normal tt, os).
Proof.
  intros Hrest. unfold SimpleOS.preemptProcess, zoom.
  rewrite preempt_none_running by (by apply at_rest_not_running).
  by destruct os.
Qed.

Lemma settled_on_process {A} (l : loc) (m : M Process.t A) (os : SimpleOS.t) :
  (forall p, at_rest p -> at_rest (snd (m p))) ->
  settled os -> settled (snd (SimpleOS.on_process l m os)).
Proof.
  intros Hm [Hrest Hqueue]. unfold SimpleOS.on_process.
  destruct (SimpleOS.heap os !! l) as [p |] eqn:Hp; [| done].
  specialize (Hm p (Forall_lookup_1 _ _ _ _ Hrest Hp)).
  destruct (m p) as [c p']. split; simpl.
  - by apply Forall_insert.
  - by rewrite length_insert.
Qed.

Lemma settled_dispatch (l : loc) (os : SimpleOS.t) :
  settled os -> settled (snd (SimpleOS.dispatch l os)).
Proof.
  intros [Hrest Hqueue].
  destruct (SimpleOS.heap os !! l) as [p |] eqn:Hp.
  - rewrite (dispatch_effect l os p Hp). simpl.
    destruct (decide _); [| done]. split; simpl.
    + apply Forall_insert; [done |].
      apply at_rest_terminated, (Forall_lookup_1 _ _ _ _ Hrest Hp).
    + by rewrite length_insert.
  - unfold SimpleOS.dispatch, mbind, M_bind, SimpleOS.on_process. by rewrite Hp.
Qed.

Lemma reachable_settled (os : SimpleOS.t) : reachable os -> settled os.
Proof.
  induction 1 as [| os r ms rc Hos IH | os pid program Hos IH | os pid Hos IH
                  | os Hos IH | os fuel c os' Hos IH Hrun].
  - by split.
  - destruct IH as [Hrest Hqueue].
    destruct (SimpleOS.createProcess r ms rc os) as [[l | e] os'] eqn:Hcreate.
    + apply createProcess_Normal in Hcreate
        as (p & Hnew & _ & -> & Hheap & Hq & _).
      split; simpl; rewrite Hheap.
      * apply Forall_app. split; [done |]. constructor; [| done].
        by eapply at_rest_new.
      * rewrite Hq, Hqueue, length_app. simpl. by rewrite Nat.add_1_r, seq_S.
    + by apply createProcess_Throw in Hcreate as ->.
  - unfold SimpleOS.loadProgramIntoProcess, mbind, M_bind, gets.
    destruct (SimpleOS.processes os !! pid) as [l |]; [| done].
    apply settled_on_process; [| done].
    intros p Hp. destruct (loadProgram_only_memory program p) as (memory & ->).
    by apply at_rest_set_memory.
  - unfold SimpleOS.executeProcess, mbind, M_bind, gets.
    destruct (SimpleOS.processes os !! pid) as [l |]; [| done].
    by apply settled_dispatch.
  - destruct IH as [Hrest Hqueue]. by rewrite preemptProcess_settled.
  - destruct (SimpleOS.heap os) as [| p heap] eqn:Hheap.
    + destruct IH as [Hrest Hqueue]. rewrite Hheap in Hqueue. simpl in Hqueue.
      destruct (run_empty fuel os Hqueue) as (os'' & Hrun' & _ & _ & Hs & _ & Hh).
      rewrite Hrun' in Hrun. simplify_eq.
      split; rewrite ?Hs, Hh, Hheap; [constructor | done].
    + rewrite run_never_returns in Hrun; [done | done | by rewrite Hheap].
Qed.

End Settled.

(** X15.  In every coordinator that calls of its methods lead to, each
    process is ready or terminated between two calls (none is running or
    waiting), so [preemptProcess] returns without changing anything. *)
Theorem preemptProcess_never_acts (os : SimpleOS.t) :
  reachable os ->
  (forall l p, SimpleOS.heap os !! l = Some p ->
               Process.state p = Process.ready \/ Process.state p = Process.terminated) /\
  SimpleOS.preemptProcess os = (Normal tt, os).
Proof.
  intros Hos. destruct (reachable_settled os Hos) as [Hrest _]. split.
  - intros l p Hp. by destruct (Forall_lookup_1 _ _ _ _ Hrest Hp) as (? & _).
  - by apply preemptProcess_settled.
Qed.

Lemma preemptProcess_never_acts_witness :
  let os := snd (SimpleOS.executeProcess 42 one_process) in
  SimpleOS.preemptProcess os = (Normal tt, os).
Proof.
  apply preemptProcess_never_acts.
  apply reachable_executeProcess, reachable_createProcess, reachable_new.
Defined.

(** X16.  In every coordinator that calls of its methods lead to, each
    process has instruction pointer 0 and every one of its registers reads 0:
    a cycle runs on the registers of a CPU that is created for the call and
    dropped after it.  The queue holds every created process once, in the
    order of creation. *)
Theorem processes_keep_registers (os : SimpleOS.t) :
  reachable os ->
  (forall l p,
     SimpleOS.heap os !! l = Some p ->
     Process.instructionPointer p = 0 /\
     forall index,
       0 <= index < Z.of_nat (length (Process.registers p)) ->
       RegisterFile.read index (Process.registers p)
       = (Normal (Fin 0), Process.registers p)) /\
  Scheduler.processQueue (SimpleOS.scheduler os) = seq 0 (length (SimpleOS.heap os)).
Proof.
  intros Hos. destruct (reachable_settled os Hos) as [Hrest Hqueue].
  split; [| done]. intros l p Hp.
  destruct (Forall_lookup_1 _ _ _ _ Hrest Hp) as (_ & Hregs & Hip).
  split; [done |]. intros index Hindex.
  destruct (element_Some _ _ Hindex) as [r Hr].
  unfold RegisterFile.read. rewrite Hr. simpl. do 2 f_equal.
  unfold element in Hr. destruct (0 <=? index); [| done].
  apply (Forall_lookup_1 _ _ _ _ Hregs Hr).
Qed.

Lemma processes_keep_registers_witness :
  exists p,
    SimpleOS.heap (snd (SimpleOS.executeProcess 42
                          (snd (SimpleOS.loadProgramIntoProcess 42 "4384,8513" one_process))))
      !! 0%nat = Some p /\
    Process.instructionPointer p = 0 /\
    RegisterFile.read 2 (Process.registers p) = (Normal (Fin 0), Process.registers p).
Proof.
  set (os := snd (SimpleOS.executeProcess 42
                    (snd (SimpleOS.loadProgramIntoProcess 42 "4384,8513" one_process)))).
  destruct (processes_keep_registers os) as [Hprocesses _].
  { apply reachable_executeProcess, reachable_loadProgramIntoProcess,
      reachable_createProcess, reachable_new. }
  destruct (SimpleOS.heap os !! 0%nat) as [p |] eqn:Hp; [| by vm_compute in Hp].
  destruct (Hprocesses 0%nat p Hp) as [Hip Hregs].
  exists p. split; [done |]. split; [exact Hip |]. apply Hregs.
  vm_compute in Hp. injection Hp as <-. by vm_compute.
Defined.

(** X17.  Lookup by pid.  In every coordinator that calls of its methods
    lead to: for a pid that is not in the table, [loadProgramIntoProcess] and
    [executeProcess] throw the process not found error that carries this pid
    and leave the coordinator unchanged; for a pid that is in the table both
    return normally. *)
Theorem pid_lookup (os : SimpleOS.t) (pid : Z) (program : string) :
  reachable os ->
  (SimpleOS.processes os !! pid = None ->
   SimpleOS.loadProgramIntoProcess pid program os = (Throw (ProcessNotFound pid), os) /\
   SimpleOS.executeProcess pid os = (Throw (ProcessNotFound pid), os)) /\
  (is_Some (SimpleOS.processes os !! pid) ->
   fst (SimpleOS.loadProgramIntoProcess pid program os) = Normal tt /\
   fst (SimpleOS.executeProcess pid os) = Normal tt).
Proof.
  intros Hos. destruct (reachable_wf os Hos) as (_ & _ & _ & Htable).
  unfold SimpleOS.loadProgramIntoProcess, SimpleOS.executeProcess, mbind, M_bind, gets.
  split.
  - by intros ->.
  - intros [l Hl]. rewrite Hl. destruct (Htable pid l Hl) as (p & Hp & _). split.
    + rewrite (on_process_valid l _ os p Hp).
      by destruct (loadProgram_only_memory program p) as (memory & ->).
    + by rewrite (dispatch_effect l os p Hp).
Qed.

Lemma pid_lookup_witness :
  SimpleOS.executeProcess 7 one_process = (Throw (ProcessNotFound 7), one_process) /\
  fst (SimpleOS.loadProgramIntoProcess 42 "1,2" one_process) = Normal tt.
Proof.
  assert (reachable one_process) as Hos
    by apply reachable_createProcess, reachable_new.
  destruct (pid_lookup one_process 7 "1,2" Hos) as [Hmissing _].
  destruct (pid_lookup one_process 42 "1,2" Hos) as [_ Hpresent].
  split.
  - apply Hmissing. reflexivity.
  - apply Hpresent. by eexists.
Defined.

(** ** Creation of a process *)

(** X19.  [createProcess].  With [0 <= memorySize < 2^32] and
    [registerCount < 2^32] the call returns a new process whose pid is the
    number drawn, in state ready, with instruction pointer 0, [registerCount]
    registers of value 0 and a memory that reads 0 from address 0 to
    [memorySize - 1]; the process is appended to the queue and entered in
    the table under its pid.  With a size outside these ranges the call
    throws a [RangeError] and the coordinator is unchanged: nothing was queued
    or entered. *)
Theorem createProcess_outcome (os : SimpleOS.t) (random memorySize registerCount : Z) :
  (0 <= memorySize < 2 ^ 32 /\ registerCount < 2 ^ 32 ->
   exists p os',
     SimpleOS.createProcess random memorySize registerCount os
       = (Normal (length (SimpleOS.heap os)), os') /\
     SimpleOS.heap os' = (SimpleOS.heap os ++ [p])%list /\
     Scheduler.processQueue (SimpleOS.scheduler os')
       = (Scheduler.processQueue (SimpleOS.scheduler os) ++ [length (SimpleOS.heap os)])%list /\
     SimpleOS.processes os' = <[random := length (SimpleOS.heap os)]> (SimpleOS.processes os) /\
     Process.pid p = random /\
     Process.state p = Process.ready /\
     Process.instructionPointer p = 0 /\
     Process.registers p = replicate (Z.to_nat registerCount) Register.new /\
     forall address,
       word_at (Process.memory p) address =
       if (0 <=? address) && (address <? memorySize) then Number (Fin 0) else Undefined) /\
  (memorySize < 0 \/ 2 ^ 32 <= memorySize \/ 2 ^ 32 <= registerCount ->
   SimpleOS.createProcess random memorySize registerCount os = (Throw RangeError, os)).
Proof.
  split.
  - intros [Hmemory Hregisters].
    destruct (Storage.new memorySize) as [memory | e] eqn:Hnew.
    2: { unfold Storage.new in Hnew.
         destruct (Z.leb_spec 0 memorySize), (Z.ltb_spec memorySize (2 ^ 32));
           simpl in Hnew; try done; lia. }
    exists {| Process.pid := random; Process.memory := memory;
              Process.registers := replicate (Z.to_nat registerCount) Register.new;
              Process.instructionPointer := 0; Process.state := Process.ready |}.
    eexists. split.
    + unfold SimpleOS.createProcess, mbind, M_bind, SimpleOS.allocate, Process.new,
        RegisterFile.new.
      rewrite Hnew. apply Z.ltb_lt in Hregisters. rewrite Hregisters. reflexivity.
    + simpl. repeat split. intros address. unfold word_at. simpl.
      rewrite (Storage_new_lookup memorySize) by done. by destruct (_ && _).
  - intros Hbad.
    unfold SimpleOS.createProcess, mbind, M_bind, SimpleOS.allocate, Process.new,
      Storage.new, RegisterFile.new.
    destruct (Z.leb_spec 0 memorySize), (Z.ltb_spec memorySize (2 ^ 32)),
             (Z.ltb_spec registerCount (2 ^ 32)); simpl; try done; lia.
Qed.

Lemma createProcess_outcome_witness :
  (exists p os',
     SimpleOS.createProcess 42 16 4 SimpleOS.new = (Normal 0%nat, os') /\
     SimpleOS.heap os' = [p] /\ Process.state p = Process.ready) /\
  SimpleOS.createProcess 42 (-1) 4 SimpleOS.new = (Throw RangeError, SimpleOS.new).
Proof.
  destruct (createProcess_outcome SimpleOS.new 42 16 4) as [Hvalid _].
  destruct (createProcess_outcome SimpleOS.new 42 (-1) 4) as [_ Hinvalid].
  split.
  - destruct Hvalid as (p & os' & Hcreate & Hheap & _ & _ & _ & Hstate & _); [lia |].
    exists p, os'. by repeat split.
  - apply Hinvalid. lia.
Defined.

(** ** The end of [run] *)

Section Run.

Lemma createProcess_timer (random memorySize registerCount : Z) (os : SimpleOS.t) :
  let os' := snd (SimpleOS.createProcess random memorySize registerCount os) in
  SimpleOS.timer os' = SimpleOS.timer os /\ SimpleOS.host os' = SimpleOS.host os.
Proof.
  unfold SimpleOS.createProcess, mbind, M_bind, SimpleOS.allocate.
  by destruct (Process.new random memorySize registerCount).
Qed.

Lemma run_without_process (fuel : nat) (os : SimpleOS.t) :
  Scheduler.processQueue (SimpleOS.scheduler os) = [] ->
  timer_idle os ->
  exists os',
    SimpleOS.run fuel os = Some (Normal tt, os') /\
    SimpleOS.heap os' = SimpleOS.heap os /\
    SimpleOS.scheduler os' = SimpleOS.scheduler os /\
    SimpleOS.processes os' = SimpleOS.processes os /\
    SimpleOS.timer os' = SimpleOS.timer os /\
    Host.next_id (SimpleOS.host os') = S (Host.next_id (SimpleOS.host os)) /\
    timer_idle os'.
Proof.
  intros Hq [Hid Hintervals].
  unfold SimpleOS.run, mbind, M_bind, SimpleOS.on_scheduler, zoom.
  unfold Scheduler.schedule. rewrite Hq. simpl.
  assert (SimpleOS.run_loop fuel None = fun self => Some (Normal tt, self)) as ->
    by (by destruct fuel).
  destruct os as [heap [intervals next] sched [interval id] table]. simpl in *. subst.
  eexists. split; [reflexivity |]. simpl. repeat split.
  apply fresh_removed. apply not_elem_of_empty.
Qed.

Lemma reachable_timer_idle (os : SimpleOS.t) : reachable os -> timer_idle os.
Proof.
  induction 1 as [| os r ms rc Hos IH | os pid program Hos IH | os pid Hos IH
                  | os Hos IH | os fuel c os' Hos IH Hrun].
  - done.
  - destruct (createProcess_timer r ms rc os) as [Ht Hh].
    unfold timer_idle. by rewrite Ht, Hh.
  - destruct (loadProgramIntoProcess_frame pid program os) as (_ & Ht & Hh & _).
    unfold timer_idle. by rewrite Ht, Hh.
  - destruct (executeProcess_frame pid os (reachable_wf os Hos)) as (_ & Ht & Hh & _).
    unfold timer_idle. by rewrite Ht, Hh.
  - destruct (preemptProcess_frame os) as (_ & Ht & Hh & _).
    unfold timer_idle. by rewrite Ht, Hh.
  - destruct (SimpleOS.heap os) as [| p heap] eqn:Hheap.
    + destruct (reachable_settled os Hos) as [_ Hqueue]. rewrite Hheap in Hqueue.
      destruct (run_without_process fuel os Hqueue IH) as (os'' & Hrun' & Hrest).
      rewrite Hrun' in Hrun. simplify_eq. tauto.
    + rewrite run_never_returns in Hrun; [done | done | by rewrite Hheap].
Qed.

End Run.

(** X20.  When [run] returns.  In a coordinator that calls of its methods
    lead to, [run] returns exactly when no process was created: without a
    process it returns normally, with the timer stopped, no interval left in
    the host, and the processes, the scheduler and the table unchanged; with
    at least one process it is still running after any number of turns. *)
Theorem run_returns_only_without_process (os : SimpleOS.t) (fuel : nat) :
  reachable os ->
  (SimpleOS.heap os = [] ->
   exists os',
     SimpleOS.run fuel os = Some (Normal tt, os') /\
     SimpleOS.heap os' = SimpleOS.heap os /\
     SimpleOS.scheduler os' = SimpleOS.scheduler os /\
     SimpleOS.processes os' = SimpleOS.processes os /\
     SimpleOS.timer os' = SimpleOS.timer os /\
     Host.intervals (SimpleOS.host os') = ∅) /\
  (SimpleOS.heap os ≠ [] -> SimpleOS.run fuel os = None).
Proof.
  intros Hos. split.
  - intros Hheap.
    destruct (reachable_settled os Hos) as [_ Hqueue]. rewrite Hheap in Hqueue.
    destruct (run_without_process fuel os Hqueue (reachable_timer_idle os Hos))
      as (os' & Hrun & ? & ? & ? & ? & _ & _ & ?).
    exists os'. by repeat split.
  - by apply run_never_returns.
Qed.

Lemma run_returns_only_without_process_witness :
  (exists os', SimpleOS.run 0 SimpleOS.new = Some (Normal tt, os')) /\
  SimpleOS.run 1000 (snd (SimpleOS.executeProcess 42 one_process)) = None.
Proof.
  destruct (run_returns_only_without_process SimpleOS.new 0 reachable_new)
    as [Hempty _].
  destruct (run_returns_only_without_process
              (snd (SimpleOS.executeProcess 42 one_process)) 1000) as [_ Hlive].
  { apply reachable_executeProcess, reachable_createProcess, reachable_new. }
  split.
  - destruct Hempty as (os' & Hrun & _); [reflexivity |]. by exists os'.
  - apply Hlive. by vm_compute.
Defined.

(** ** The turns of [run] *)

Section Turns.

Local Open Scope nat_scope.

Lemma run_unfold_start (fuel : nat) (os : SimpleOS.t) :
  SimpleOS.run fuel os =
  match run_start os with
  | (Normal process, self) =>
      match SimpleOS.run_loop fuel process self with
      | Some (Normal _, self) => Some (SimpleOS.on_timer Timer.stop self)
      | r => r
      end
  | (Throw e, self) => Some (Throw e, self)
  end.
Proof. reflexivity. Qed.

Lemma run_loop_turns (turns fuel : nat) (process : option loc) (os : SimpleOS.t) :
  SimpleOS.run_loop (turns + fuel) process os =
  match run_turns turns process os with
  | (Normal next, os') => SimpleOS.run_loop fuel next os'
  | (Throw e, os') => Some (Throw e, os')
  end.
Proof.
  revert process os. induction turns as [| turns IH]; intros process os; [done |].
  destruct process as [p |]; simpl; [| by destruct fuel].
  destruct (SimpleOS.run_body p os) as [[next | e] os']; [apply IH | done].
Qed.

Lemma terminated_twice (p : Process.t) :
  Process.set_state Process.terminated (Process.set_state Process.terminated p)
  = Process.set_state Process.terminated p.
Proof. done. Qed.

Lemma terminated_at_rest (p : Process.t) :
  at_rest p ->
  (if decide (Process.state p = Process.ready)
   then Process.set_state Process.terminated p else p)
  = Process.set_state Process.terminated p.
Proof.
  intros ([Hs | Hs] & _); destruct (decide _) as [E | E]; try done.
  destruct p. simpl in *. by subst.
Qed.

Lemma turn (l n : nat) (heap : list Process.t) (host : Host.t) (cursor : nat)
      (timer : Timer.t) (table : gmap Z loc) :
  n = length heap -> l < n -> cursor < n -> Forall at_rest heap ->
  SimpleOS.run_body l
    {| SimpleOS.heap := heap; SimpleOS.host := host;
       SimpleOS.scheduler :=
         {| Scheduler.processQueue := seq 0 n;
            Scheduler.currentProcessIndex := cursor |};
       SimpleOS.timer := timer; SimpleOS.processes := table |}
  = (Normal (Some cursor),
     {| SimpleOS.heap := alter (Process.set_state Process.terminated) l heap;
        SimpleOS.host := host;
        SimpleOS.scheduler :=
          {| Scheduler.processQueue := seq 0 n;
             Scheduler.currentProcessIndex := (cursor + 1) mod n |};
        SimpleOS.timer := timer; SimpleOS.processes := table |}).
Proof.
  intros -> Hl Hc Hrest.
  destruct (lookup_lt_is_Some_2 heap l Hl) as [p Hp].
  unfold SimpleOS.run_body, mbind, M_bind.
  rewrite (dispatch_effect l _ p) by done.
  assert (alter (Process.set_state Process.terminated) l heap
          = <[l := if decide (Process.state p = Process.ready)
                   then Process.set_state Process.terminated p else p]> heap) as ->.
  { rewrite terminated_at_rest by (by eapply Forall_lookup_1).
    apply list_eq. intros i. destruct (decide (i = l)) as [-> | Hi].
    - rewrite list_lookup_alter_eq, list_lookup_insert_eq by done. by rewrite Hp.
    - by rewrite list_lookup_alter_ne, list_lookup_insert_ne by done. }
  assert (Hsched : forall heap',
    SimpleOS.on_scheduler Scheduler.schedule
      {| SimpleOS.heap := heap'; SimpleOS.host := host;
         SimpleOS.scheduler :=
           {| Scheduler.processQueue := seq 0 (length heap);
              Scheduler.currentProcessIndex := cursor |};
         SimpleOS.timer := timer; SimpleOS.processes := table |}
    = (Normal (Some cursor),
       {| SimpleOS.heap := heap'; SimpleOS.host := host;
          SimpleOS.scheduler :=
            {| Scheduler.processQueue := seq 0 (length heap);
               Scheduler.currentProcessIndex := (cursor + 1) mod length heap |};
          SimpleOS.timer := timer; SimpleOS.processes := table |})).
  { intros heap'. unfold SimpleOS.on_scheduler, zoom. simpl.
    rewrite (schedule_at_cursor _ cursor) by (by apply lookup_seq_lt).
    simpl. by rewrite length_seq. }
  destruct (decide _); simpl.
  - unfold SimpleOS.set_heap. simpl. apply Hsched.
  - rewrite list_insert_id by done. apply Hsched.
Qed.

Lemma run_turns_visits (turns : nat) :
  forall (l n : nat) (heap : list Process.t) (host : Host.t)
         (timer : Timer.t) (table : gmap Z loc),
  n = length heap -> l < n -> Forall at_rest heap ->
  run_turns turns (Some l)
    {| SimpleOS.heap := heap; SimpleOS.host := host;
       SimpleOS.scheduler :=
         {| Scheduler.processQueue := seq 0 n;
            Scheduler.currentProcessIndex := (l + 1) mod n |};
       SimpleOS.timer := timer; SimpleOS.processes := table |}
  = (Normal (Some ((l + turns) mod n)),
     {| SimpleOS.heap :=
          foldl (fun h i => alter (Process.set_state Process.terminated) i h) heap
                ((fun i => (l + i) mod n) <$> seq 0 turns);
        SimpleOS.host := host;
        SimpleOS.scheduler :=
          {| Scheduler.processQueue := seq 0 n;
             Scheduler.currentProcessIndex := (l + turns + 1) mod n |};
        SimpleOS.timer := timer; SimpleOS.processes := table |}).
Proof.
  induction turns as [| turns IH]; intros l n heap host timer table Hn Hl Hrest.
  - simpl. rewrite !Nat.add_0_r. by rewrite (Nat.mod_small l n).
  - assert (Hn0 : n <> 0) by lia.
    change (run_turns (S turns) (Some l) ?os)
      with (match SimpleOS.run_body l os with
            | (Normal next, self') => run_turns turns next self'
            | (Throw e, self') => (Throw e, self')
            end).
    rewrite (turn l n) by (done || by apply Nat.mod_upper_bound).
    assert (Hlist : (fun i => (l + i) mod n) <$> seq 0 (S turns)
                    = l :: ((fun i => ((l + 1) mod n + i) mod n) <$> seq 0 turns)).
    { rewrite <- cons_seq, <- fmap_S_seq, fmap_cons, <- list_fmap_compose.
      rewrite Nat.add_0_r, (Nat.mod_small l n) by done. f_equal.
      apply list_fmap_ext. intros _ i _. simpl.
      rewrite Nat.Div0.add_mod_idemp_l. f_equal. lia. }
    rewrite Hlist, (IH ((l + 1) mod n) n).
    + rewrite Nat.Div0.add_mod_idemp_l.
      replace ((l + 1) mod n + turns + 1) with ((l + 1) mod n + (turns + 1)) by lia.
      rewrite Nat.Div0.add_mod_idemp_l.
      replace (l + 1 + turns) with (l + S turns) by lia.
      replace (l + 1 + (turns + 1)) with (l + S turns + 1) by lia.
      reflexivity.
    + by rewrite length_alter.
    + by apply Nat.mod_upper_bound.
    + apply Forall_alter; [done |]. intros p _. apply at_rest_terminated.
Qed.

Lemma lookup_foldl_alter {A} (f : A -> A) (visited : list nat) :
  (forall x, f (f x) = f x) ->
  forall (l : list A) (j : nat),
  foldl (fun h i => alter f i h) l visited !! j
  = if decide (j ∈ visited) then f <$> l !! j else l !! j.
Proof.
  intros Hf. induction visited as [| i visited IH]; intros l j; [done |].
  simpl. rewrite IH.
  destruct (decide (j = i)) as [-> | Hj].
  - rewrite list_lookup_alter_eq.
    rewrite (decide_True (P := i ∈ i :: visited)) by left.
    destruct (decide _); [| done].
    destruct (l !! i); simpl; by rewrite ?Hf.
  - rewrite list_lookup_alter_ne by done.
    destruct (decide (j ∈ visited)) as [Hin | Hin].
    + by rewrite decide_True by (by right).
    + rewrite decide_False; [done |]. by intros [? | ?]%elem_of_cons.
Qed.

Lemma rotation_covers (l n turns j : nat) :
  l < n -> j < n -> n <= turns ->
  j ∈ (fun i => (l + i) mod n) <$> seq 0 turns.
Proof.
  intros Hl Hj Hturns. apply list_elem_of_fmap.
  exists (if decide (l <= j) then j - l else j + n - l). split.
  - destruct (decide _).
    + replace (l + (j - l)) with j by lia. by rewrite Nat.mod_small.
    + replace (l + (j + n - l)) with (j + 1 * n) by lia.
      by rewrite Nat.Div0.mod_add, Nat.mod_small.
  - apply elem_of_seq. destruct (decide _); lia.
Qed.

Lemma run_start_settled (os : SimpleOS.t) :
  settled os -> timer_idle os -> SimpleOS.heap os <> [] ->
  (Scheduler.currentProcessIndex (SimpleOS.scheduler os)
     < length (SimpleOS.heap os)) ->
  exists host timer,
    Timer.timerId timer <> None /\
    run_start os =
    (Normal (Some (Scheduler.currentProcessIndex (SimpleOS.scheduler os))),
     {| SimpleOS.heap := SimpleOS.heap os; SimpleOS.host := host;
        SimpleOS.scheduler :=
          {| Scheduler.processQueue := seq 0 (length (SimpleOS.heap os));
             Scheduler.currentProcessIndex :=
               (Scheduler.currentProcessIndex (SimpleOS.scheduler os) + 1)
                 mod length (SimpleOS.heap os) |};
        SimpleOS.timer := timer; SimpleOS.processes := SimpleOS.processes os |}).
Proof.
  intros [_ Hqueue] [Hid _] Hheap Hcursor.
  destruct os as [heap host [queue cursor] [interval id] table]. simpl in *. subst.
  unfold run_start, mbind, M_bind, SimpleOS.on_scheduler, zoom. simpl.
  rewrite (schedule_at_cursor _ cursor) by (by apply lookup_seq_lt).
  simpl. rewrite length_seq. eexists _, _. split; [| reflexivity]. done.
Qed.

End Turns.

(** X18.  What a call can do to a process.  Over a call of [createProcess],
    [loadProgramIntoProcess], [executeProcess] or [preemptProcess], and over
    the start of [run] followed by any number of turns of its loop, a
    process that exists before exists after, at the same place, with the
    same pid, registers and instruction pointer; its state is either
    unchanged or has gone from ready to terminated, and in the second case
    its memory is unchanged.  No process ever leaves the terminated state. *)
Theorem process_lifecycle (os os' : SimpleOS.t) (l : loc) (p : Process.t) :
  reachable os ->
  step os os' ->
  SimpleOS.heap os !! l = Some p ->
  exists p',
    SimpleOS.heap os' !! l = Some p' /\
    Process.pid p' = Process.pid p /\
    Process.registers p' = Process.registers p /\
    Process.instructionPointer p' = Process.instructionPointer p /\
    (Process.state p' = Process.state p \/
     Process.state p = Process.ready /\ Process.state p' = Process.terminated /\
     Process.memory p' = Process.memory p).
Proof.
  intros Hos Hstep Hp.
  destruct (reachable_wf os Hos) as (_ & _ & _ & Htable).
  destruct Hstep as [os r ms rc | os pid program | os pid | os | os turns].
  - destruct (SimpleOS.createProcess r ms rc os) as [[l0 | e] os'] eqn:Hcreate.
    + apply createProcess_Normal in Hcreate as (p0 & _ & _ & _ & Hheap & _).
      exists p. simpl. rewrite Hheap. split; [by apply lookup_app_l_Some | auto 10].
    + apply createProcess_Throw in Hcreate as ->. exists p. simpl. auto 10.
  - unfold SimpleOS.loadProgramIntoProcess, mbind, M_bind, gets.
    destruct (SimpleOS.processes os !! pid) as [l0 |] eqn:Hl0; [| exists p; simpl; auto 10].
    destruct (Htable pid l0 Hl0) as (p0 & Hp0 & _).
    rewrite (on_process_valid l0 _ os p0 Hp0).
    destruct (loadProgram_only_memory program p0) as (memory & ->). simpl.
    destruct (decide (l0 = l)) as [-> | Hne].
    + rewrite Hp in Hp0. injection Hp0 as <-.
      eexists. split; [apply list_lookup_insert_eq; by eapply lookup_lt_Some |].
      simpl. auto 10.
    + exists p. simpl. rewrite list_lookup_insert_ne by done. auto 10.
  - unfold SimpleOS.executeProcess, mbind, M_bind, gets.
    destruct (SimpleOS.processes os !! pid) as [l0 |] eqn:Hl0; [| exists p; simpl; auto 10].
    destruct (Htable pid l0 Hl0) as (p0 & Hp0 & _).
    rewrite (dispatch_effect l0 os p0 Hp0). simpl.
    destruct (decide (Process.state p0 = Process.ready)) as [Hready | _];
      [| exists p; simpl; auto 10].
    simpl. destruct (decide (l0 = l)) as [-> | Hne].
    + rewrite Hp in Hp0. injection Hp0 as <-.
      eexists. split; [apply list_lookup_insert_eq; by eapply lookup_lt_Some |].
      simpl. auto 10.
    + exists p. simpl. rewrite list_lookup_insert_ne by done. auto 10.
  - destruct (reachable_settled os Hos) as [Hrest _].
    rewrite preemptProcess_settled by done. exists p. simpl. auto 10.
  - destruct (reachable_settled os Hos) as [Hrest Hqueue].
    pose proof (Forall_lookup_1 _ _ _ _ Hrest Hp) as ([Hstate | Hstate] & _).
    all: assert (Hheap : SimpleOS.heap os <> [])
      by (intros Hempty; by rewrite Hempty in Hp).
    all: assert (Hcursor : (Scheduler.currentProcessIndex (SimpleOS.scheduler os)
                            < length (SimpleOS.heap os))%nat)
      by (destruct (reachable_wf os Hos) as (Hlen & _ & Hc & _); rewrite Hlen in Hc;
          destruct (SimpleOS.heap os); [done | simpl in *; lia]).
    all: destruct (run_start_settled os (conj Hrest Hqueue)
                     (reachable_timer_idle os Hos) Hheap Hcursor)
      as (host & timer & _ & Hstart).
    all: unfold run_for; rewrite Hstart, run_turns_visits by done; simpl.
    all: rewrite lookup_foldl_alter by apply terminated_twice; rewrite Hp.
    all: destruct (decide _); [| exists p; auto 10].
    all: eexists; (split; [reflexivity |]); simpl; auto 10.
Qed.

Lemma process_lifecycle_witness :
  exists p p' p'',
    SimpleOS.heap one_process !! 0%nat = Some p /\
    SimpleOS.heap (snd (SimpleOS.executeProcess 42 one_process)) !! 0%nat = Some p' /\
    Process.pid p' = Process.pid p /\
    Process.registers p' = Process.registers p /\
    SimpleOS.heap (run_for 3 one_process) !! 0%nat = Some p'' /\
    Process.registers p'' = Process.registers p.
Proof.
  assert (reachable one_process) as Hos
    by apply reachable_createProcess, reachable_new.
  destruct (SimpleOS.heap one_process !! 0%nat) as [p |] eqn:Hp;
    [| by vm_compute in Hp].
  destruct (process_lifecycle one_process _ 0%nat p Hos
              (step_executeProcess one_process 42) Hp)
    as (p' & Hp' & Hpid & Hregs & _).
  destruct (process_lifecycle one_process _ 0%nat p Hos
              (step_run one_process 3) Hp)
    as (p'' & Hp'' & _ & Hregs' & _).
  exists p, p', p''. by repeat split.
Defined.

(** X21.  What the loop of [run] does.  In a coordinator with [n >= 1]
    processes that calls of its methods lead to, [run] enters its loop with
    the process that the queue holds under the cursor, the processes being
    as before.  After [turns >= n] turns every process is terminated, with
    the rest of it unchanged; the loop then goes on with the process that
    the queue holds [turns] places after the cursor, counted round the
    queue; the table and the queue are as before, and the timer is still
    started. *)
Theorem run_terminates_every_process (os : SimpleOS.t) :
  reachable os ->
  SimpleOS.heap os <> [] ->
  let queue := Scheduler.processQueue (SimpleOS.scheduler os) in
  let cursor := Scheduler.currentProcessIndex (SimpleOS.scheduler os) in
  exists first os1,
    queue !! cursor = Some first /\
    run_start os = (Normal (Some first), os1) /\
    SimpleOS.heap os1 = SimpleOS.heap os /\
    (forall fuel,
       SimpleOS.run fuel os =
       match SimpleOS.run_loop fuel (Some first) os1 with
       | Some (Normal _, os') => Some (SimpleOS.on_timer Timer.stop os')
       | r => r
       end) /\
    forall turns, (length (SimpleOS.heap os) <= turns)%nat ->
      exists next os',
        queue !! ((cursor + turns) mod length queue)%nat = Some next /\
        run_turns turns (Some first) os1 = (Normal (Some next), os') /\
        (forall fuel,
           SimpleOS.run_loop (turns + fuel) (Some first) os1
           = SimpleOS.run_loop fuel (Some next) os') /\
        SimpleOS.heap os' =
          Process.set_state Process.terminated <$> SimpleOS.heap os /\
        SimpleOS.processes os' = SimpleOS.processes os /\
        Scheduler.processQueue (SimpleOS.scheduler os') = queue /\
        Timer.timerId (SimpleOS.timer os') <> None.
Proof.
  intros Hos Hheap queue cursor.
  pose proof (reachable_settled os Hos) as Hsettled.
  assert (Hcursor : (cursor < length (SimpleOS.heap os))%nat).
  { destruct (reachable_wf os Hos) as (Hlen & _ & Hc & _). rewrite Hlen in Hc.
    subst cursor. destruct (SimpleOS.heap os); [done | simpl in *; lia]. }
  destruct (run_start_settled os Hsettled (reachable_timer_idle os Hos) Hheap Hcursor)
    as (host & timer & Htimer & Hstart).
  destruct Hsettled as [Hrest Hqueue].
  assert (Hentry : forall i, (i < length (SimpleOS.heap os))%nat -> queue !! i = Some i).
  { intros i Hi. subst queue. rewrite Hqueue. by apply lookup_seq_lt. }
  assert (Hlength : length queue = length (SimpleOS.heap os))
    by (subst queue; by rewrite Hqueue, length_seq).
  exists cursor. eexists. split; [by apply Hentry |]. split; [exact Hstart |].
  split; [done |]. split; [intros fuel; by rewrite run_unfold_start, Hstart |].
  intros turns Hturns.
  pose proof (fun fuel => run_loop_turns turns fuel (Some cursor)) as Hloop.
  eexists _, _. split; [| split; [by apply run_turns_visits |]].
  { rewrite Hlength. apply Hentry, Nat.mod_upper_bound. lia. }
  split; [intros fuel; by rewrite Hloop, run_turns_visits |]. simpl.
  split; [| by subst queue; rewrite Hqueue].
  apply list_eq. intros j.
  rewrite lookup_foldl_alter by apply terminated_twice.
  rewrite list_lookup_fmap.
  destruct (decide (j < length (SimpleOS.heap os))%nat) as [Hj | Hj].
  - by rewrite decide_True by (by apply rotation_covers).
  - rewrite (lookup_ge_None_2 (SimpleOS.heap os) j) by lia. by destruct (decide _).
Qed.

Lemma run_terminates_every_process_witness :
  exists next os',
    run_turns 1 (Some 0%nat) (snd (run_start one_process)) = (Normal (Some next), os') /\
    Process.state <$> SimpleOS.heap os' = [Process.terminated].
Proof.
  destruct (run_terminates_every_process one_process)
    as (first & os1 & Hfirst & Hstart & _ & _ & Hturns).
  { apply reachable_createProcess, reachable_new. }
  { by vm_compute. }
  assert (first = 0%nat) as -> by (vm_compute in Hfirst; by injection Hfirst).
  destruct (Hturns 1%nat) as (next & os' & _ & Hrun & _ & Hheap & _).
  { vm_compute. lia. }
  exists next, os'. rewrite Hstart.
  split; [exact Hrun |]. rewrite Hheap. by vm_compute.
Defined.

(** ** File system and virtual memory *)

(** X22.  Files after [createFile].  After [createFile(name, content)],
    [readFile(name)] returns [content] and every other name reads as before;
    a second [createFile] or a [writeFile] on that name replaces the content;
    [deleteFile(name)] returns, after which [readFile(name)] throws the file
    not found error; and when the name was not there before, creating and
    deleting it gives back the file system as it was. *)
Theorem FileSystem_create_then_use (fs : FileSystem.t) (name content content' : string) :
  let fs1 := snd (FileSystem.createFile name content fs) in
  FileSystem.readFile name fs1 = (inr content, fs1) /\
  (forall other, other <> name ->
     fst (FileSystem.readFile other fs1) = fst (FileSystem.readFile other fs)) /\
  FileSystem.createFile name content' fs1 = FileSystem.createFile name content' fs /\
  FileSystem.writeFile name content' fs1 = FileSystem.createFile name content' fs /\
  (exists fs2,
     FileSystem.deleteFile name fs1 = (inr tt, fs2) /\
     FileSystem.readFile name fs2 = (inl (FileNotFound name), fs2) /\
     (FileSystem.files fs !! name = None -> fs2 = fs)).
Proof.
  destruct fs as [files]. simpl.
  unfold FileSystem.readFile, FileSystem.writeFile, FileSystem.deleteFile,
    FileSystem.createFile. simpl.
  rewrite lookup_insert_eq, insert_insert_eq. repeat split.
  - intros other Hother. rewrite lookup_insert_ne by done. by destruct (files !! other).
  - eexists. split; [reflexivity |]. simpl. rewrite lookup_delete_eq. split; [done |].
    intros Hname. by rewrite delete_insert_id.
Qed.

Lemma FileSystem_create_then_use_witness :
  fst (FileSystem.readFile "notes"
         (snd (FileSystem.createFile "notes" "first" FileSystem.new))) = inr "first" /\
  snd (FileSystem.deleteFile "notes"
         (snd (FileSystem.createFile "notes" "first" FileSystem.new))) = FileSystem.new.
Proof.
  destruct (FileSystem_create_then_use FileSystem.new "notes" "first" "second")
    as (Hread & _ & _ & _ & fs2 & Hdelete & _ & Hnew).
  split.
  - by rewrite Hread.
  - rewrite Hdelete. by apply Hnew.
Defined.

(** X23.  A name without a file.  [readFile], [writeFile] and [deleteFile]
    on a name that has no file throw the file not found error with that name
    and leave the file system unchanged; in particular [writeFile] never
    creates a file.  No name has a file in a new file system, nor after a
    [deleteFile] of it that returned, which leaves every other name as it
    was. *)
Theorem FileSystem_missing_file (fs : FileSystem.t) (name content : string) :
  (FileSystem.files fs !! name = None ->
   FileSystem.readFile name fs = (inl (FileNotFound name), fs) /\
   FileSystem.writeFile name content fs = (inl (FileNotFound name), fs) /\
   FileSystem.deleteFile name fs = (inl (FileNotFound name), fs)) /\
  FileSystem.files FileSystem.new !! name = None /\
  (forall fs', FileSystem.deleteFile name fs = (inr tt, fs') ->
     FileSystem.files fs' !! name = None /\
     forall other, other <> name ->
       FileSystem.files fs' !! other = FileSystem.files fs !! other) /\
  (forall other content', other <> name ->
     FileSystem.files fs !! name = None ->
     FileSystem.files (snd (FileSystem.writeFile other content' fs)) !! name = None).
Proof.
  unfold FileSystem.readFile, FileSystem.writeFile, FileSystem.deleteFile.
  split; [by intros -> |]. split; [done |]. split.
  - intros fs'. destruct (FileSystem.files fs !! name); [| done].
    intros [= <-]. simpl. split; [apply lookup_delete_eq |].
    intros other Hother. by apply lookup_delete_ne.
  - intros other content' Hother Hname.
    destruct (FileSystem.files fs !! other); [| done].
    simpl. by rewrite lookup_insert_ne.
Qed.

Lemma FileSystem_missing_file_witness :
  FileSystem.writeFile "notes" "text" FileSystem.new
  = (inl (FileNotFound "notes"), FileSystem.new).
Proof.
  destruct (FileSystem_missing_file FileSystem.new "notes" "text") as [Hmissing _].
  by apply Hmissing.
Defined.

(** X24.  The page table.  After [mapVirtualToPhysical(v, p)], [resolve(v)]
    returns [p] and every other address resolves as before; mapping [v]
    again replaces its entry.  [resolve] of an address that is not mapped
    throws the invalid virtual address error with that address and changes
    nothing, and no address is mapped in a new virtual memory. *)
Theorem VirtualMemory_resolve (vm : VirtualMemory.t) (virtualAddress physicalAddress : Z) :
  let vm1 := snd (VirtualMemory.mapVirtualToPhysical virtualAddress physicalAddress vm) in
  VirtualMemory.resolve virtualAddress vm1 = (inr physicalAddress, vm1) /\
  (forall other, other <> virtualAddress ->
     fst (VirtualMemory.resolve other vm1) = fst (VirtualMemory.resolve other vm)) /\
  (forall physicalAddress',
     VirtualMemory.mapVirtualToPhysical virtualAddress physicalAddress' vm1
     = VirtualMemory.mapVirtualToPhysical virtualAddress physicalAddress' vm) /\
  (VirtualMemory.pageTable vm !! virtualAddress = None ->
   VirtualMemory.resolve virtualAddress vm
   = (inl (InvalidVirtualAddress virtualAddress), vm)) /\
  VirtualMemory.resolve virtualAddress VirtualMemory.new
  = (inl (InvalidVirtualAddress virtualAddress), VirtualMemory.new).
Proof.
  destruct vm as [pageTable]. simpl.
  unfold VirtualMemory.resolve, VirtualMemory.mapVirtualToPhysical. simpl.
  rewrite lookup_insert_eq. repeat split.
  - intros other Hother. rewrite lookup_insert_ne by done.
    by destruct (pageTable !! other).
  - intros physicalAddress'. by rewrite insert_insert_eq.
  - by intros ->.
Qed.

Lemma VirtualMemory_resolve_witness :
  fst (VirtualMemory.resolve 4096
         (snd (VirtualMemory.mapVirtualToPhysical 4096 12 VirtualMemory.new))) = inr 12 /\
  fst (VirtualMemory.resolve 8192
         (snd (VirtualMemory.mapVirtualToPhysical 4096 12 VirtualMemory.new)))
  = inl (InvalidVirtualAddress 8192).
Proof.
  destruct (VirtualMemory_resolve VirtualMemory.new 4096 12) as (Hsame & Hother & _ & _ & Hnew).
  split.
  - by rewrite Hsame.
  - rewrite (Hother 8192) by done.
    destruct (VirtualMemory_resolve VirtualMemory.new 8192 0) as (_ & _ & _ & _ & Hnew').
    by rewrite Hnew'.
Defined.

(** ** Program texts in general *)

Section Program_length.

Lemma forEach_from_write_length (values : list number) (start : Z) (m : Storage.t) :
  0 <= start <= Storage.length m ->
  start + Z.of_nat (length values) <= 2 ^ 32 - 1 ->
  Storage.length
    (snd (forEach_from (fun instruction index => Storage.write index instruction)
            start values m))
  = Z.max (Storage.length m) (start + Z.of_nat (length values)).
Proof.
  revert start m. induction values as [| v values IH]; intros start m Hstart Hend.
  - simpl. lia.
  - simpl length in *. simpl. unfold mbind, M_bind. simpl.
    set (m1 := {| Storage.memory := _; Storage.length := _ |}).
    assert (Hm1 : Storage.length m1 = Z.max (Storage.length m) (start + 1)).
    { subst m1. simpl.
      destruct (Storage.length m <=? start) eqn:E1;
        destruct (start <? 2 ^ 32 - 1) eqn:E2; simpl; lia. }
    pose proof (IH (start + 1) m1) as Hrest.
    destruct (forEach_from _ (start + 1) values m1) as [c m'].
    destruct c; simpl in *; rewrite Hrest; lia.
Qed.

Lemma split_not_empty (separator : ascii) (s : string) :
  (0 < length (Str.split separator s))%nat.
Proof.
  induction s as [| c s IH]; simpl; [lia |].
  destruct (Ascii.eqb c separator); simpl; [lia |].
  destruct (Str.split separator s); simpl in *; lia.
Qed.

Lemma append_assoc (a b c : string) : (a +:+ b) +:+ c = a +:+ (b +:+ c).
Proof. induction a as [| x a IH]; [done |]. change (String x ((a +:+ b) +:+ c) = String x (a +:+ (b +:+ c))). by rewrite IH. Qed.

Lemma split_join_app (separator : ascii) (tokens : list string) (rest : string) :
  tokens <> [] ->
  Forall (fun token => Str.free_of separator token = true) tokens ->
  Str.split separator (Str.join separator tokens +:+ String separator rest)
  = (tokens ++ Str.split separator rest)%list.
Proof.
  induction tokens as [| token tokens IH]; [done |]. intros _ Hfree.
  apply Forall_cons in Hfree as [Htoken Hrest].
  destruct tokens as [| token' tokens]; [by apply split_app |].
  change (Str.join separator (token :: token' :: tokens))
    with (token +:+ String separator (Str.join separator (token' :: tokens))).
  rewrite append_assoc.
  change (String separator (Str.join separator (token' :: tokens)) +:+ String separator rest)
    with (String separator (Str.join separator (token' :: tokens) +:+ String separator rest)).
  rewrite split_app by done. simpl app. f_equal. by apply IH.
Qed.

End Program_length.

(** X25.  [loadProgram] in general.  For every program text of code units
    below 256 the call returns normally and changes the memory of the
    process only.  The text has at least one token; token [i] is parsed with
    radix 10, which gives the double nearest to the integer of its digits,
    and the result is stored at address [i]; every address below 0 or at or
    past the number of tokens reads as before.  No bound is checked: a
    program of more tokens than the memory has words makes the memory as long
    as the program. *)
Theorem loadProgram_effect (program : string) (p : Process.t) :
  let tokens := Str.split "," program in
  exists memory,
    Process.loadProgram program p = (Normal tt, Process.set_memory memory p) /\
    (0 < length tokens)%nat /\
    (forall (i : nat) (token : string),
       tokens !! i = Some token ->
       word_at memory (Z.of_nat i) = Number (Str.parseInt token (Fin 10))) /\
    (forall address,
       address < 0 \/ Z.of_nat (length tokens) <= address ->
       word_at memory address = word_at (Process.memory p) address) /\
    (0 <= Storage.length (Process.memory p) ->
     Z.of_nat (length tokens) <= 2 ^ 32 - 1 ->
     Storage.length memory
     = Z.max (Storage.length (Process.memory p)) (Z.of_nat (length tokens))).
Proof.
  intros tokens.
  unfold Process.loadProgram, Process.on_memory, zoom, forEach.
  fold tokens.
  pose proof (forEach_from_write_length
                ((fun num => Str.parseInt num (Fin 10)) <$> tokens) 0 (Process.memory p))
    as Hlength.
  destruct (forEach_from_write
              ((fun num => Str.parseInt num (Fin 10)) <$> tokens)
              0 (Process.memory p)) as (m' & Hrun & Hin & Hout).
  rewrite Hrun in *. rewrite length_fmap in *. simpl in Hlength.
  exists m'. split; [done |]. split; [apply split_not_empty |]. repeat split.
  - intros i token Hi. unfold word_at.
    rewrite <- (Z.add_0_l (Z.of_nat i)), (Hin i (Str.parseInt token (Fin 10))); [done |].
    by rewrite list_lookup_fmap, Hi.
  - intros address Haddress. unfold word_at. rewrite Hout; [done | lia].
  - intros H0 Hmax. apply Hlength; lia.
Qed.

Lemma loadProgram_effect_witness :
  exists memory,
    Process.loadProgram "7,9007199254740993,9" example_process
      = (Normal tt, Process.set_memory memory example_process) /\
    word_at memory 1 = Number (Fin 9007199254740992) /\
    word_at memory 3 = Number (Fin 0) /\
    Storage.length memory = 16.
Proof.
  destruct (loadProgram_effect "7,9007199254740993,9" example_process)
    as (memory & Hload & _ & Hin & Hout & Hlength).
  exists memory. split; [exact Hload |]. split; [| split].
  - change 1 with (Z.of_nat 1).
    rewrite (Hin 1%nat "9007199254740993"); [by vm_compute | reflexivity].
  - rewrite Hout; [by vm_compute | right; by vm_compute].
  - rewrite Hlength; by vm_compute.
Defined.

(** X26.  Programs in decimal notation.  Loading the text of a non-empty
    list of integers, each printed in decimal and separated by commas, stores
    at address [i] the double nearest to integer [i], which is the integer
    itself when its absolute value is at most 2^53.  With a comma at the end
    of that text the address after the last integer receives NaN, and the
    empty program stores NaN at address 0. *)
Theorem loadProgram_decimal_words (words : list Z) (p : Process.t) :
  words <> [] ->
  (exists p',
     Process.loadProgram (Str.join "," (pretty <$> words)) p = (Normal tt, p') /\
     forall (i : nat) (w : Z),
       words !! i = Some w ->
       word_at (Process.memory p') (Z.of_nat i) = Number (Num.of_integer w) /\
       (Z.abs w <= 2 ^ 53 ->
        word_at (Process.memory p') (Z.of_nat i) = Number (Fin w))) /\
  (exists p',
     Process.loadProgram (Str.join "," (pretty <$> words) +:+ ",") p = (Normal tt, p') /\
     (forall (i : nat) (w : Z),
        words !! i = Some w ->
        word_at (Process.memory p') (Z.of_nat i) = Number (Num.of_integer w) /\
        (Z.abs w <= 2 ^ 53 ->
         word_at (Process.memory p') (Z.of_nat i) = Number (Fin w))) /\
     word_at (Process.memory p') (Z.of_nat (length words)) = Number NaN) /\
  (exists p',
     Process.loadProgram EmptyString p = (Normal tt, p') /\
     word_at (Process.memory p') 0 = Number NaN).
Proof.
  intros Hne.
  assert (Hfree : Forall (fun token => Str.free_of "," token = true) (pretty <$> words)).
  { apply Forall_fmap, Forall_forall. intros z _. apply free_of_pretty. }
  assert (Hne' : pretty <$> words <> []) by (by destruct words).
  assert (Hword : forall program p',
    Process.loadProgram program p = (Normal tt, p') ->
    forall (i : nat) (token : string),
      Str.split "," program !! i = Some token ->
      word_at (Process.memory p') (Z.of_nat i) = Number (Str.parseInt token (Fin 10))).
  { intros program p' Hload i token Hi.
    destruct (loadProgram_tokens program p) as (p'' & Hload' & _ & _ & Htokens).
    rewrite Hload in Hload'. injection Hload' as <-.
    specialize (Htokens i token Hi). unfold Storage.read, gets in Htokens.
    simpl in Htokens. by injection Htokens. }
  assert (Hdecimal : forall program p' (i : nat) (w : Z),
    Process.loadProgram program p = (Normal tt, p') ->
    Str.split "," program !! i = Some (pretty w) ->
    word_at (Process.memory p') (Z.of_nat i) = Number (Num.of_integer w) /\
    (Z.abs w <= 2 ^ 53 ->
     word_at (Process.memory p') (Z.of_nat i) = Number (Fin w))).
  { intros program p' i w Hload Hi.
    rewrite (Hword _ _ Hload i (pretty w) Hi), parseInt_decimal.
    split; [done |]. intros Hsmall. by rewrite of_integer_small. }
  split; [| split].
  - destruct (loadProgram_tokens (Str.join "," (pretty <$> words)) p)
      as (p' & Hload & _).
    exists p'. split; [done |]. intros i w Hw.
    apply (Hdecimal _ _ _ _ Hload).
    rewrite split_join by done. by rewrite list_lookup_fmap, Hw.
  - destruct (loadProgram_tokens (Str.join "," (pretty <$> words) +:+ ",") p)
      as (p' & Hload & _).
    exists p'. split; [done |].
    assert (Hsplit : Str.split "," (Str.join "," (pretty <$> words) +:+ ",")
                     = ((pretty <$> words) ++ [EmptyString])%list)
      by (by rewrite split_join_app).
    split.
    + intros i w Hw. apply (Hdecimal _ _ _ _ Hload).
      rewrite Hsplit. apply lookup_app_l_Some. by rewrite list_lookup_fmap, Hw.
    + rewrite (Hword _ _ Hload (length words) EmptyString); [done |].
      rewrite Hsplit, lookup_app_r by (by rewrite length_fmap).
      by rewrite length_fmap, Nat.sub_diag.
  - destruct (loadProgram_tokens EmptyString p) as (p' & Hload & _).
    exists p'. split; [done |].
    by apply (Hword _ _ Hload 0%nat EmptyString).
Qed.

Lemma loadProgram_decimal_words_witness :
  exists p',
    Process.loadProgram "4384,-9025,9007199254740993" example_process = (Normal tt, p') /\
    word_at (Process.memory p') 1 = Number (Fin (-9025)) /\
    word_at (Process.memory p') 2 = Number (Fin 9007199254740992).
Proof.
  destruct (loadProgram_decimal_words [4384; -9025; 9007199254740993] example_process)
    as [(p' & Hload & Hwords) _]; [done |].
  exists p'. split; [exact Hload |]. split.
  - destruct (Hwords 1%nat (-9025)) as [_ Hexact]; [done |].
    apply Hexact. by vm_compute.
  - destruct (Hwords 2%nat 9007199254740993) as [Hnearest _]; [done |].
    change 2 with (Z.of_nat 2). rewrite Hnearest. by vm_compute.
Defined.
